(** * odata_query.visitor: the traversal and the transformation engine

    A shallow embedding of [src/odata_query/visitor.py] (the functions
    [iter_dataclass_fields], [NodeVisitor.visit], [NodeVisitor.generic_visit]
    and [NodeTransformer.generic_visit]) over an explicit object store, and
    the properties that the specification states about them. *)

From Stdlib Require Import ZArith Lia.
From stdpp Require Import base option list strings gmap.

Set Warnings "-register-all,-clear-no-such-hyp".

(** ** Data model *)

(** Object identity: the address of an instance in the store. *)
Abbreviation addr := nat (only parsing).

(** Values the engines never look into: neither a [list] nor an
    [ast._Node]. *)
Inductive scalar :=
| SNone
| SBool (b : bool)
| SInt (z : Z)
| SStr (s : string).

(** A Python value as the engines see it.  [VRef a] is a reference to the
    [ast._Node] instance stored at [a]: [isinstance(v, ast._Node)] holds of
    these values and of no other.  [VList] is a [list]: [isinstance(v, list)].
    Nodes are held by reference, lists by value: the engines read the lists
    of a node and build new ones, they never update one, so that the
    identity of a list plays no part. *)
Inductive value :=
| VScalar (s : scalar)
| VRef (a : addr)
| VList (items : list value).

(** A node class: [__name__], the names of its proper ancestors below
    [ast._Node], and what [dataclasses.fields] enumerates, in declared
    order. *)
Record class := Class {
  cls_name : string;
  cls_bases : list string;
  cls_fields : list string;
}.

(** An instance of a node class: its class and its attributes. *)
Record obj := Obj {
  obj_class : class;
  obj_attrs : gmap string value;
}.

#[global] Instance scalar_eq_dec : EqDecision scalar.
Proof. solve_decision. Defined.

#[global] Instance class_eq_dec : EqDecision class.
Proof. solve_decision. Defined.

#[global] Instance value_eq_dec : EqDecision value.
Proof.
  refine (fix go (x y : value) {struct x} : Decision (x = y) :=
            match x, y with
            | VScalar s, VScalar s' => cast_if (decide (s = s'))
            | VRef a, VRef b => cast_if (decide (a = b))
            | VList l, VList l' => cast_if (@list_eq_dec _ go l l')
            | _, _ => right _
            end); congruence.
Defined.

(** The store of node instances (allocation appends), and the log of the
    calls of [visit], by argument, oldest first.  The log is ghost state: no
    definition below reads it. *)
Record state := State {
  heap : list obj;
  trace : list value;
}.

(** The exceptions.  [DanglingRef] is none of Python: it is the outcome of a
    call on a reference to no instance of the store, which a run never
    holds. *)
Inductive error :=
| RecursionError
| TypeError
| AttributeError
| DanglingRef.

(** The outcome of a call: a returned value or a raised exception, and the
    state that the call leaves behind. *)
Inductive result (A : Type) :=
| Ok (x : A) (st : state)
| Err (e : error) (st : state).
Arguments Ok {A} x st.
Arguments Err {A} e st.

Definition M (A : Type) : Type := state → result A.

Definition ret {A} (x : A) : M A := fun st => Ok x st.

Definition bind {A B} (m : M A) (k : A → M B) : M B :=
  fun st =>
    match m st with
    | Ok x st' => k x st'
    | Err e st' => Err e st'
    end.

Definition raise {A} (e : error) : M A := fun st => Err e st.

Declare Scope py_scope.
Delimit Scope py_scope with py.
Notation "x <- m ;; k" := (bind m (fun x => k))
  (at level 100, m at next level, right associativity) : py_scope.
Notation "m ;; k" := (bind m (fun _ => k))
  (at level 100, right associativity) : py_scope.
Open Scope py_scope.

Definition final_state {A} (r : result A) : state :=
  match r with
  | Ok _ st => st
  | Err _ st => st
  end.

(** ** Primitives of the object model *)

(** [isinstance(v, ast._Node)] *)
Definition is_node (v : value) : bool :=
  match v with
  | VRef _ => true
  | _ => false
  end.

(** [node.__class__.__name__], of any value. *)
Definition class_name (node : value) : M string :=
  fun st =>
    match node with
    | VScalar SNone => Ok "NoneType" st
    | VScalar (SBool _) => Ok "bool" st
    | VScalar (SInt _) => Ok "int" st
    | VScalar (SStr _) => Ok "str" st
    | VList _ => Ok "list" st
    | VRef a =>
        match heap st !! a with
        | Some o => Ok (cls_name (obj_class o)) st
        | None => Err DanglingRef st
        end
    end.

(** [type(node)], of a node. *)
Definition type_of (node : value) : M class :=
  fun st =>
    match node with
    | VRef a =>
        match heap st !! a with
        | Some o => Ok (obj_class o) st
        | None => Err DanglingRef st
        end
    | _ => Err TypeError st
    end.

(** [fields(node)], by name: a [TypeError] on what is not a dataclass
    instance. *)
Definition fields (node : value) : M (list string) :=
  cls <- type_of node ;; ret (cls_fields cls).

(** [getattr(node, name)] *)
Definition getattr (node : value) (name : string) : M value :=
  fun st =>
    match node with
    | VRef a =>
        match heap st !! a with
        | Some o =>
            match obj_attrs o !! name with
            | Some v => Ok v st
            | None => Err AttributeError st
            end
        | None => Err DanglingRef st
        end
    | _ => Err AttributeError st
    end.

(** Modelled from the spec: the node classes of [odata_query.ast], whose
    constructor [generic_visit] calls on [type(node)] with the new values as
    keyword arguments, are not among the sources.  By
    section 6 (c) the reconstruction operation of a kind accepts "a full set
    of (name → value) pairs matching its declared fields" and produces "a new
    instance of the same kind".  A call whose keywords are not exactly the
    declared fields is a [TypeError]; the values are stored as they are
    given, which is what the constructor of a dataclass does. *)
Definition construct (cls : class) (kwargs : gmap string value) : M value :=
  fun st =>
    if bool_decide (dom kwargs = list_to_set (cls_fields cls))
    then Ok (VRef (length (heap st)))
            (State (heap st ++ [Obj cls kwargs]) (trace st))
    else Err TypeError st.

(** ** The loops *)

(** [for x in l: body(x)] *)
Fixpoint for_each {A} (body : A → M unit) (l : list A) : M unit :=
  match l with
  | [] => ret tt
  | x :: l' => body x ;; for_each body l'
  end.

(** [acc = init; for x in l: acc = body(acc, x)] *)
Fixpoint for_fold {A B} (body : B → A → M B) (l : list A) (acc : B) : M B :=
  match l with
  | [] => ret acc
  | x :: l' => acc' <- body acc x ;; for_fold body l' acc'
  end.

(** ** iter_dataclass_fields

    The generator evaluates [fields(node)] when it starts and
    [getattr(node, field.name)] when the consumer asks for the next pair: a
    pair is the name of a field and the read of the attribute, which the
    loop runs when it reaches the pair, after its body has run on the pairs
    before. *)
Definition iter_dataclass_fields (node : value) : M (list (string * M value)) :=
  names <- fields node ;;
  ret (map (fun name => (name, getattr node name)) names).

(** [for field, value in pairs: acc = body(acc, field, value)] *)
Definition for_pairs {B} (body : B → string → value → M B)
    (pairs : list (string * M value)) (acc : B) : M B :=
  for_fold (fun acc pair => val <- snd pair ;; body acc (fst pair) val) pairs acc.

(** [for field, value in iter_dataclass_fields(node): acc = body(acc, field, value)] *)
Definition for_fields {B} (body : B → string → value → M B)
    (node : value) (acc : B) : M B :=
  pairs <- iter_dataclass_fields node ;; for_pairs body pairs acc.

(** ** NodeVisitor *)

(** A method of a visitor other than [visit]: it receives [self.visit] and
    the node. *)
Definition method := (value → M value) → value → M value.

(** A visitor class: its [generic_visit], and the other methods that it
    defines, by attribute name. *)
Record visitor := Visitor {
  generic_visit : method;
  methods : gmap string method;
}.

(** A call of [visit] on [node] is entered: the log grows, nothing else
    changes. *)
Definition log_visit (node : value) : M unit :=
  fun st => Ok tt (State (heap st) (trace st ++ [node])).

(** [NodeVisitor.visit].  [fuel] bounds the number of nested activations of
    [visit], as the interpreter's recursion limit does: a call that needs
    more raises [RecursionError]. *)
Fixpoint visit (V : visitor) (fuel : nat) (node : value) : M value :=
  match fuel with
  | 0 => raise RecursionError
  | S fuel' =>
      log_visit node ;;
      name <- class_name node ;;
      let method := "visit_" +:+ name in
      let visitor := default (generic_visit V) (methods V !! method) in
      visitor (visit V fuel') node
  end.

(** The body of the inner loop of [NodeVisitor.generic_visit]. *)
Definition visit_item (self_visit : value → M value) (item : value) : M unit :=
  if is_node item then self_visit item ;; ret tt else ret tt.

(** What [NodeVisitor.generic_visit] does with the value of a field. *)
Definition visit_field (self_visit : value → M value) (val : value) : M unit :=
  match val with
  | VList items => for_each (visit_item self_visit) items
  | VRef _ => self_visit val ;; ret tt
  | VScalar _ => ret tt
  end.

(** [NodeVisitor.generic_visit]; it returns [None]. *)
Definition NodeVisitor_generic_visit : method :=
  fun self_visit node =>
    for_fields (fun (_ : unit) field val => visit_field self_visit val) node tt ;;
    ret (VScalar SNone).

Definition NodeVisitor (handlers : gmap string method) : visitor :=
  Visitor NodeVisitor_generic_visit handlers.

(** ** NodeTransformer *)

(** The body of the inner loop of [NodeTransformer.generic_visit]:
    [new_val.append(...)]. *)
Definition transform_item (self_visit : value → M value)
    (new_val : list value) (item : value) : M (list value) :=
  if is_node item
  then r <- self_visit item ;; ret (new_val ++ [r])
  else ret (new_val ++ [item]).

(** The value that [NodeTransformer.generic_visit] computes for a field. *)
Definition transform_field (self_visit : value → M value) (val : value) : M value :=
  match val with
  | VList items =>
      new_val <- for_fold (transform_item self_visit) items [] ;;
      ret (VList new_val)
  | VRef _ => self_visit val
  | VScalar _ => ret val
  end.

(** [NodeTransformer.generic_visit] *)
Definition NodeTransformer_generic_visit : method :=
  fun self_visit node =>
    new_kwargs <-
      for_fields (fun (new_kwargs : gmap string value) field val =>
          new_val <- transform_field self_visit val ;;
          ret (<[field := new_val]> new_kwargs))
        node ∅ ;;
    cls <- type_of node ;;
    construct cls new_kwargs.

(** [NodeTransformer] inherits [visit]. *)
Definition NodeTransformer (handlers : gmap string method) : visitor :=
  Visitor NodeTransformer_generic_visit handlers.

(** ** Trees

    The unfolding of a value of the store: what a reference designates is
    written out.  A finite unfolding exists when no node is its own
    descendant. *)
Inductive tree :=
| TScalar (s : scalar)
| TNode (a : addr) (c : class) (kids : list tree)
| TList (items : list tree).

Section tree_induction.
Variable P : tree → Prop.
Hypothesis Hscalar : ∀ s, P (TScalar s).
Hypothesis Hnode : ∀ a c kids, Forall P kids → P (TNode a c kids).
Hypothesis Hlist : ∀ items, Forall P items → P (TList items).

Fixpoint tree_nested_ind (t : tree) : P t :=
  match t with
  | TScalar s => Hscalar s
  | TNode a c kids =>
      Hnode a c kids
        ((fix go (l : list tree) : Forall P l :=
            match l with
            | [] => Forall_nil_2 P
            | k :: l' => Forall_cons_2 P k l' (tree_nested_ind k) (go l')
            end) kids)
  | TList items =>
      Hlist items
        ((fix go (l : list tree) : Forall P l :=
            match l with
            | [] => Forall_nil_2 P
            | k :: l' => Forall_cons_2 P k l' (tree_nested_ind k) (go l')
            end) items)
  end.
End tree_induction.

(** [repr h t v]: in the store [h], the value [v] unfolds to [t].  The
    fields of a node are those of its class, whose names are distinct (as
    those of a dataclass are), each present on the instance. *)
Inductive repr (h : list obj) : tree → value → Prop :=
| repr_scalar s : repr h (TScalar s) (VScalar s)
| repr_node a o kids :
    h !! a = Some o →
    NoDup (cls_fields (obj_class o)) →
    Forall2 (fun f k => ∃ v, obj_attrs o !! f = Some v ∧ repr h k v)
      (cls_fields (obj_class o)) kids →
    repr h (TNode a (obj_class o) kids) (VRef a)
| repr_list items vs :
    Forall2 (repr h) items vs →
    repr h (TList items) (VList vs).

(** The same, as a test. *)
Fixpoint reprb (h : list obj) (t : tree) (v : value) {struct t} : bool :=
  match t, v with
  | TScalar s, VScalar s' => bool_decide (s = s')
  | TNode a c kids, VRef a' =>
      bool_decide (a = a') &&
      match h !! a with
      | Some o =>
          bool_decide (obj_class o = c) &&
          bool_decide (NoDup (cls_fields c)) &&
          (fix go (names : list string) (kids : list tree) {struct kids} : bool :=
             match names, kids with
             | [], [] => true
             | f :: names', k :: kids' =>
                 match obj_attrs o !! f with
                 | Some v => reprb h k v
                 | None => false
                 end && go names' kids'
             | _, _ => false
             end) (cls_fields c) kids
      | None => false
      end
  | TList items, VList vs =>
      (fix go (items : list tree) (vs : list value) {struct items} : bool :=
         match items, vs with
         | [], [] => true
         | t :: items', v :: vs' => reprb h t v && go items' vs'
         | _, _ => false
         end) items vs
  | _, _ => false
  end.

(** A list item that is a node; the engines pass every other item by. *)
Definition is_tnode (t : tree) : bool :=
  match t with
  | TNode _ _ _ => true
  | _ => false
  end.

(** The nodes of a tree in pre-order: a node, then what its fields hold, in
    the declared order of the fields; of a list, the items that are nodes, in
    list order.  An item that is itself a list is no child: a list of
    children holds nodes, and the engines pass any other item by. *)
Fixpoint preorder (t : tree) : list addr :=
  match t with
  | TScalar _ => []
  | TNode a _ kids => a :: flat_map preorder kids
  | TList items =>
      flat_map (fun i => match i with TNode _ _ _ => preorder i | _ => [] end) items
  end.

(** The number of nodes on the longest path from a node down to a leaf. *)
Fixpoint height (t : tree) : nat :=
  match t with
  | TScalar _ => 0
  | TNode _ _ kids => S (max_list (map height kids))
  | TList items =>
      max_list (map (fun i => match i with TNode _ _ _ => height i | _ => 0 end) items)
  end.

(** What [==] compares: kinds and field values, in order, not identities. *)
Inductive shape :=
| ShScalar (s : scalar)
| ShNode (c : class) (kids : list shape)
| ShList (items : list shape).

Fixpoint shape_of (t : tree) : shape :=
  match t with
  | TScalar s => ShScalar s
  | TNode _ c kids => ShNode c (map shape_of kids)
  | TList items => ShList (map shape_of items)
  end.

(** ** Vocabulary of the statements *)

(** The children of a node: the nodes that its fields hold, in the declared
    order of the fields and, within a list, in list order. *)
Definition children (t : tree) : list tree :=
  match t with
  | TNode _ _ kids =>
      flat_map (fun k =>
                  match k with
                  | TScalar _ => []
                  | TNode _ _ _ => [k]
                  | TList items =>
                      flat_map (fun i => match i with TNode _ _ _ => [i] | _ => [] end) items
                  end) kids
  | _ => []
  end.

(** The outcome of a plain traversal started in [st] with [fuel], of trees of
    height [hgt] at most whose nodes in pre-order are [nodes]: the value [x]
    and the nodes logged when [fuel] covers [hgt], a [RecursionError]
    otherwise; the store is the same in both cases. *)
Definition plain_outcome {A} (hgt : nat) (nodes : list addr) (fuel : nat)
    (st : state) (x : A) (r : result A) : Prop :=
  if decide (hgt ≤ fuel)
  then r = Ok x (State (heap st) (trace st ++ (VRef <$> nodes)))
  else ∃ tr, r = Err RecursionError (State (heap st) tr).

(** [t] is traversed as the plain outcome says, from every state in which a
    value unfolds to it. *)
Definition visits_plainly (t : tree) : Prop :=
  ∀ v fuel st, repr (heap st) t v →
    match t with
    | TNode _ _ _ =>
        plain_outcome (height t) (preorder t) fuel st (VScalar SNone)
          (visit (NodeVisitor ∅) fuel v st)
    | _ =>
        plain_outcome (height t) (preorder t) fuel st tt
          (visit_field (visit (NodeVisitor ∅) fuel) v st)
    end.

(** The outcome of a plain transformation started in [st] with [fuel], of
    trees of height [hgt] at most whose nodes in pre-order are [nodes]: when
    [fuel] covers [hgt], a result that satisfies [post], the nodes logged and
    a store that extends that of [st]; a [RecursionError] otherwise, in a
    store that extends that of [st] as well. *)
Definition rebuild_outcome {A} (hgt : nat) (nodes : list addr) (fuel : nat)
    (st : state) (post : A → state → Prop) (r : result A) : Prop :=
  if decide (hgt ≤ fuel)
  then ∃ x st', r = Ok x st' ∧ heap st `prefix_of` heap st' ∧
         trace st' = trace st ++ (VRef <$> nodes) ∧ post x st'
  else ∃ st', r = Err RecursionError st' ∧ heap st `prefix_of` heap st'.

(** [v'] in [st'] is a copy of [t] made of nodes that [st] does not have. *)
Definition rebuilt (t : tree) (st : state) (v' : value) (st' : state) : Prop :=
  ∃ t', repr (heap st') t' v' ∧ shape_of t' = shape_of t ∧
        Forall (fun a => length (heap st) ≤ a) (preorder t') ∧
        NoDup (preorder t').

(** [t] is rebuilt as the plain outcome says, from every state in which a
    value unfolds to it. *)
Definition rebuilds_plainly (t : tree) : Prop :=
  ∀ v fuel st, repr (heap st) t v →
    rebuild_outcome (height t) (preorder t) fuel st (rebuilt t st)
      (transform_field (visit (NodeTransformer ∅) fuel) v st).

(** [m] relates the state it starts in to the state it ends in, on a return
    and on an exception alike. *)
Definition preserves {A} (R : state → state → Prop) (m : M A) : Prop :=
  ∀ st, R st (final_state (m st)).

(** The store after is the store before. *)
Definition same_store (st st' : state) : Prop := heap st' = heap st.

(** Every instance of the store before is in the store after, as it was. *)
Definition extended_store (st st' : state) : Prop := heap st `prefix_of` heap st'.

(** A method that respects [R] whenever the [self.visit] it is given does. *)
Definition method_preserves (R : state → state → Prop) (h : method) : Prop :=
  ∀ self, (∀ v, preserves R (self v)) → ∀ v, preserves R (h self v).

(** [v] is the value [val] of a field or, when that is a list, one of its
    items. *)
Definition held_by (val v : value) : Prop :=
  val = v ∨ ∃ items, val = VList items ∧ v ∈ items.

(** [v] is a child of the instance [o]: a node that a declared field of [o]
    holds. *)
Definition is_child (o : obj) (v : value) : Prop :=
  is_node v = true ∧
  ∃ f val, f ∈ cls_fields (obj_class o) ∧ obj_attrs o !! f = Some val ∧ held_by val v.

(** The exception [e] that left the state [st'] was raised by the call of
    [self.visit] on [v], made in a store that extends [h0]. *)
Definition raised_on (h0 : list obj) (self : value → M value) (v : value)
    (e : error) (st' : state) : Prop :=
  ∃ st, h0 `prefix_of` heap st ∧ self v st = Err e st'.

(** The exception was raised by the call of [self.visit] on a child of [o]. *)
Definition raised_by (h0 : list obj) (self : value → M value) (o : obj)
    (e : error) (st' : state) : Prop :=
  ∃ v, is_child o v ∧ raised_on h0 self v e st'.

(** [r] is what a list item becomes: the result of a call of [self.visit] on
    it when it is a node, the item otherwise.  The call is made in a store
    that extends [h0]. *)
Definition item_result (h0 : list obj) (self : value → M value) (item r : value) : Prop :=
  if is_node item
  then ∃ st st', h0 `prefix_of` heap st ∧ self item st = Ok r st'
  else r = item.

(** [r] is what the value of a field becomes. *)
Definition field_result (h0 : list obj) (self : value → M value) (val r : value) : Prop :=
  match val with
  | VScalar _ => r = val
  | VRef _ => ∃ st st', h0 `prefix_of` heap st ∧ self val st = Ok r st'
  | VList items => ∃ rs, r = VList rs ∧ Forall2 (item_result h0 self) items rs
  end.

(** A dataclass instance: the fields of its class have distinct names and
    the instance has an attribute for each. *)
Definition dataclass_instance (o : obj) : Prop :=
  NoDup (cls_fields (obj_class o)) ∧
  Forall (fun f => is_Some (obj_attrs o !! f)) (cls_fields (obj_class o)).

#[global] Instance dataclass_instance_dec o : Decision (dataclass_instance o).
Proof. unfold dataclass_instance. apply _. Defined.

(** The transformation of [node] raises. *)
Definition fails_loudly (V : visitor) (fuel : nat) (node : value) (st : state) : Prop :=
  ∃ e st', visit V fuel node st = Err e st'.

(** Sharing of the children that no handler alters: in the node that the
    transformation of [a] returns, a field that held a child whose kind has
    no handler holds that same instance. *)
Definition shares_untouched_children (hs : gmap string method) (fuel : nat)
    (a : addr) (st : state) : Prop :=
  ∀ o a' st' o' f child o_child,
    heap st !! a = Some o →
    visit (NodeTransformer hs) fuel (VRef a) st = Ok (VRef a') st' →
    heap st' !! a' = Some o' →
    obj_attrs o !! f = Some (VRef child) →
    heap st !! child = Some o_child →
    hs !! ("visit_" +:+ cls_name (obj_class o_child)) = None →
    obj_attrs o' !! f = Some (VRef child).

(** Two outcomes that differ at most by the value returned. *)
Definition same_effect {A B} (r1 : result A) (r2 : result B) : Prop :=
  match r1, r2 with
  | Ok _ st1, Ok _ st2 => st1 = st2
  | Err e1 st1, Err e2 st2 => e1 = e2 ∧ st1 = st2
  | _, _ => False
  end.

(** [self.visit] with its results replaced by [r]. *)
Definition returning (r : value) (self : value → M value) : value → M value :=
  fun v => self v ;; ret r.

(** [self.visit] on nodes, an exception on every other value. *)
Definition on_nodes_only (self : value → M value) : value → M value :=
  fun v => if is_node v then self v else raise TypeError.

(** The names of the classes of the nodes of a tree, in pre-order. *)
Fixpoint kinds (t : tree) : list string :=
  match t with
  | TScalar _ => []
  | TNode _ c kids => cls_name c :: flat_map kinds kids
  | TList items =>
      flat_map (fun i => match i with TNode _ _ _ => kinds i | _ => [] end) items
  end.

(** No node of [t] has a kind for which [hs] has a handler. *)
Definition unhandled (hs : gmap string method) (t : tree) : Prop :=
  Forall (fun k => hs !! ("visit_" +:+ k) = None) (kinds t).

#[global] Instance unhandled_dec hs t : Decision (unhandled hs t).
Proof. unfold unhandled. apply _. Defined.

(** [r] stands in a rebuilt node of the store [h'] for the child [child] of
    the store [h].  When the kind of the child has no handler, [r] is an
    instance that [h] does not have, so not the child.  When no node below
    the child has a kind with a handler either, so that no handler alters the
    child, [r] unfolds in [h'] to a tree of the shape of the child, made of
    instances that [h] does not have. *)
Definition rebuilt_child (hs : gmap string method) (h h' : list obj) (child : addr)
    (r : value) : Prop :=
  ∀ o_child,
    h !! child = Some o_child →
    dataclass_instance o_child →
    hs !! ("visit_" +:+ cls_name (obj_class o_child)) = None →
    (∃ c', r = VRef c' ∧ c' ≠ child ∧ h !! c' = None) ∧
    ∀ t, repr h t (VRef child) → unhandled hs t →
      ∃ t', repr h' t' r ∧ shape_of t' = shape_of t ∧
            Forall (fun a' => h !! a' = None) (preorder t').

(** What a property [Q] of the results of [self.visit] says, in the state
    [st'], of what a list item has become: [Q] when the item is a node, the
    item itself otherwise. *)
Definition item_post (Q : value → value → state → Prop) (st' : state)
    (item r : value) : Prop :=
  if is_node item then Q item r st' else r = item.

(** The same of what the value of a field has become. *)
Definition field_post (Q : value → value → state → Prop) (st' : state)
    (val r : value) : Prop :=
  match val with
  | VScalar _ => r = val
  | VRef _ => Q val r st'
  | VList items => ∃ rs, r = VList rs ∧ Forall2 (item_post Q st') items rs
  end.

(** A plain transformation of [t] that returns has built one instance for
    each node of [t], that of a node last. *)
Definition builds_one_per_node (t : tree) : Prop :=
  ∀ v fuel st v' st', repr (heap st) t v →
    transform_field (visit (NodeTransformer ∅) fuel) v st = Ok v' st' →
    length (heap st') = length (heap st) + length (preorder t) ∧
    (is_tnode t = true → v' = VRef (length (heap st') - 1)).

(** The height of the trees of a shape. *)
Fixpoint shape_height (s : shape) : nat :=
  match s with
  | ShScalar _ => 0
  | ShNode _ kids => S (max_list (map shape_height kids))
  | ShList items =>
      max_list (map (fun i => match i with ShNode _ _ => shape_height i | _ => 0 end) items)
  end.

(** A handler that makes no call of its own: it returns at once, whatever
    it is given, and leaves the state as it is. *)
Definition returns_at_once (h : method) : Prop :=
  ∃ r, ∀ self_visit node st, h self_visit node st = Ok r st.

(** The nodes of [t] in pre-order, those below a node whose kind has a
    handler in [hs] left out. *)
Fixpoint reached (hs : gmap string method) (t : tree) : list addr :=
  match t with
  | TScalar _ => []
  | TNode a c kids =>
      a :: match hs !! ("visit_" +:+ cls_name c) with
           | Some _ => []
           | None => flat_map (reached hs) kids
           end
  | TList items =>
      flat_map (fun i => match i with TNode _ _ _ => reached hs i | _ => [] end) items
  end.

(** The number of nodes on the longest path from a node down to a leaf or to
    a node whose kind has a handler in [hs]. *)
Fixpoint reach_depth (hs : gmap string method) (t : tree) : nat :=
  match t with
  | TScalar _ => 0
  | TNode _ c kids =>
      S match hs !! ("visit_" +:+ cls_name c) with
        | Some _ => 0
        | None => max_list (map (reach_depth hs) kids)
        end
  | TList items =>
      max_list (map (fun i => match i with TNode _ _ _ => reach_depth hs i | _ => 0 end) items)
  end.

(** [t] is traversed down to its handled nodes, from every state in which a
    value unfolds to it. *)
Definition visits_reached (hs : gmap string method) (t : tree) : Prop :=
  ∀ v fuel st, repr (heap st) t v →
    match t with
    | TNode _ _ _ =>
        ∃ r, plain_outcome (reach_depth hs t) (reached hs t) fuel st r
               (visit (NodeVisitor hs) fuel v st)
    | _ =>
        plain_outcome (reach_depth hs t) (reached hs t) fuel st tt
          (visit_field (visit (NodeVisitor hs) fuel) v st)
    end.

(** ** Examples *)

Module Examples.

Definition Literal := Class "Literal" [] ["val"].
Definition Identifier := Class "Identifier" [] ["name"].
Definition Compare := Class "Compare" [] ["comparator"; "left"; "right"].
Definition Call := Class "Call" [] ["func"; "args"].
(** A subclass of [Literal]. *)
Definition Integer := Class "Integer" ["Literal"] ["val"].

(** [Call(Identifier("f"), [Compare("eq", Identifier("x"), Literal(1)), "raw", Integer(2)])] *)
Definition obj_f : obj := Obj Identifier {[ "name" := VScalar (SStr "f") ]}.
Definition obj_x : obj := Obj Identifier {[ "name" := VScalar (SStr "x") ]}.
Definition obj_one : obj := Obj Literal {[ "val" := VScalar (SInt 1) ]}.
Definition obj_eq : obj :=
  Obj Compare (<["comparator" := VScalar (SStr "eq")]>
               (<["left" := VRef 1]> {[ "right" := VRef 2 ]})).
Definition obj_two : obj := Obj Integer {[ "val" := VScalar (SInt 2) ]}.
Definition obj_call : obj :=
  Obj Call (<["func" := VRef 0]>
            {[ "args" := VList [VRef 3; VScalar (SStr "raw"); VRef 4] ]}).

Definition heap0 : list obj := [obj_f; obj_x; obj_one; obj_eq; obj_two; obj_call].

Definition st0 : state := State heap0 [].

Definition tree0 : tree :=
  TNode 5 Call
    [ TNode 0 Identifier [TScalar (SStr "f")];
      TList [ TNode 3 Compare
                [ TScalar (SStr "eq");
                  TNode 1 Identifier [TScalar (SStr "x")];
                  TNode 2 Literal [TScalar (SInt 1)] ];
              TScalar (SStr "raw");
              TNode 4 Integer [TScalar (SInt 2)] ] ].

(** A handler that replaces a [Literal] by a string, which is not a node. *)
Definition visit_Literal_as_string : method :=
  fun _ _ => ret (VScalar (SStr "oops")).

Definition string_for_Literal : gmap string method :=
  {[ "visit_Literal" := visit_Literal_as_string ]}.

(** A handler that returns the node it is given. *)
Definition visit_Literal_same : method := fun _ node => ret node.

Definition same_Literal : gmap string method :=
  {[ "visit_Literal" := visit_Literal_same ]}.

(** A handler that returns at once. *)
Definition visit_Call_seven : method := fun _ _ => ret (VScalar (SInt 7)).

Definition seven_for_Call : gmap string method :=
  {[ "visit_Call" := visit_Call_seven ]}.

(** A node under two parents:
    [x = Identifier("x"); Compare("eq", x, x)], the same instance twice. *)
Definition heap_shared : list obj :=
  [ obj_x;
    Obj Compare (<["comparator" := VScalar (SStr "eq")]>
                 (<["left" := VRef 0]> {[ "right" := VRef 0 ]})) ].

Definition st_shared : state := State heap_shared [].

Definition tree_shared : tree :=
  TNode 1 Compare
    [ TScalar (SStr "eq");
      TNode 0 Identifier [TScalar (SStr "x")];
      TNode 0 Identifier [TScalar (SStr "x")] ].

(** An instance without the attribute of a declared field: a [Compare]
    that has no [right]. *)
Definition obj_partial : obj :=
  Obj Compare (<["comparator" := VScalar (SStr "eq")]> {[ "left" := VRef 1 ]}).

Definition st_partial : state := State [obj_f; obj_x; obj_partial] [].

(** A handler for a kind that the tree [tree0] does not have. *)
Definition boolean_handler : gmap string method :=
  {[ "visit_Boolean" := visit_Call_seven ]}.

(** A handler for [Compare] that returns at once. *)
Definition seven_for_Compare : gmap string method :=
  {[ "visit_Compare" := visit_Call_seven ]}.

End Examples.

(** * Proofs *)

(** ** Basic facts *)

Lemma reprb_sound h t : ∀ v, reprb h t v = true → repr h t v.
Proof.
  induction t as [s|a c kids IH|items IH] using tree_nested_ind; intros v Hb.
  - destruct v; simpl in Hb; try discriminate.
    apply bool_decide_eq_true in Hb. subst. constructor.
  - destruct v as [|a'|]; simpl in Hb; try discriminate.
    apply andb_prop in Hb as [Ha Hb]. apply bool_decide_eq_true in Ha. subst a'.
    destruct (h !! a) as [o|] eqn:Ho; [|discriminate].
    apply andb_prop in Hb as [Hb Hk]. apply andb_prop in Hb as [Hc Hnd].
    apply bool_decide_eq_true in Hc. apply bool_decide_eq_true in Hnd. subst c.
    constructor; [done|done|].
    revert Hk. generalize (cls_fields (obj_class o)) as names.
    induction IH as [|k kids Hk' _ IHk]; intros [|f names] Hk; try discriminate.
    + constructor.
    + apply andb_prop in Hk as [H1 H2].
      destruct (obj_attrs o !! f) as [v|] eqn:Hf; [|discriminate].
      constructor; eauto.
  - destruct v as [| |vs]; simpl in Hb; try discriminate.
    constructor. revert vs Hb.
    induction IH as [|k items Hk' _ IHk]; intros [|v vs] Hb; try discriminate.
    + constructor.
    + apply andb_prop in Hb as [H1 H2]. constructor; eauto.
Qed.

Lemma state_eta st : State (heap st) (trace st) = st.
Proof. by destruct st. Qed.

(** The loop over the pairs of the generator, as a loop over the names. *)
Lemma for_fields_unfold {B} (body : B → string → value → M B) node acc st :
  for_fields body node acc st =
  (names <- fields node ;;
   for_fold (fun acc field => val <- getattr node field ;; body acc field val)
     names acc) st.
Proof.
  unfold for_fields, iter_dataclass_fields, for_pairs, bind, ret.
  destruct (fields node st) as [names st1|e st1]; [|done].
  revert acc st1. induction names as [|f names IH]; intros acc st1; [done|].
  cbn [map for_fold fst snd]. unfold bind.
  destruct (getattr node f st1) as [val st2|e st2]; [|done].
  destruct (body acc f val st2) as [acc' st3|e st3]; [apply IH|done].
Qed.

Lemma Forall2_impl_Forall_l {A B} (P Q : A → B → Prop) (R : A → Prop) l k :
  Forall2 P l k → Forall R l → (∀ x y, R x → P x y → Q x y) → Forall2 Q l k.
Proof.
  intros H HR Himp. induction H as [|x y l k Hxy _ IH]; [constructor|].
  apply Forall_cons in HR as [HR1 HR2]. constructor; auto.
Qed.

Lemma Forall2_impl_Forall_r {A B} (P Q : A → B → Prop) (R : B → Prop) l k :
  Forall2 P l k → Forall R k → (∀ x y, R y → P x y → Q x y) → Forall2 Q l k.
Proof.
  intros H HR Himp. induction H as [|x y l k Hxy _ IH]; [constructor|].
  apply Forall_cons in HR as [HR1 HR2]. constructor; auto.
Qed.

Lemma repr_mono h ext t : ∀ v, repr h t v → repr (h ++ ext) t v.
Proof.
  induction t as [s|a c kids IH|items IH] using tree_nested_ind;
    intros v Hr; inversion Hr; subst.
  - constructor.
  - constructor; [by apply lookup_app_l_Some|done|].
    eapply Forall2_impl_Forall_r; [eassumption|exact IH|].
    intros f k Hk (w & Hw & Hrw). eauto.
  - constructor.
    eapply Forall2_impl_Forall_l; [eassumption|exact IH|].
    intros k w Hk Hrw. eauto.
Qed.

Lemma Forall2_Forall_impl_l {A B} (P : A → B → Prop) (R Q : A → Prop) l k :
  Forall2 P l k → Forall R l → (∀ x y, R x → P x y → Q x) → Forall Q l.
Proof.
  intros H HR Himp. induction H as [|x y l k Hxy _ IH]; [constructor|].
  apply Forall_cons in HR as [HR1 HR2]. constructor; eauto.
Qed.

Lemma Forall2_Forall_impl_r {A B} (P : A → B → Prop) (R Q : B → Prop) l k :
  Forall2 P l k → Forall R k → (∀ x y, R y → P x y → Q y) → Forall Q k.
Proof.
  intros H HR Himp. induction H as [|x y l k Hxy _ IH]; [constructor|].
  apply Forall_cons in HR as [HR1 HR2]. constructor; eauto.
Qed.

Lemma Forall_flat_map_intro {A B} (P : B → Prop) (f : A → list B) l :
  Forall (fun x => Forall P (f x)) l → Forall P (flat_map f l).
Proof.
  induction 1 as [|x l Hx _ IH]; simpl; [constructor|].
  apply Forall_app; auto.
Qed.

(** Every node of an unfolding is in the store. *)
Lemma repr_bound h t v : repr h t v → Forall (fun a => a < length h) (preorder t).
Proof.
  revert v.
  induction t as [s|a c kids IH|items IH] using tree_nested_ind;
    intros v Hr; inversion Hr; subst; simpl.
  - constructor.
  - constructor; [by eapply lookup_lt_Some|].
    apply Forall_flat_map_intro.
    eapply Forall2_Forall_impl_r; [eassumption|exact IH|].
    intros f k Hk (w & Hw & Hrw). eauto.
  - apply Forall_flat_map_intro.
    eapply Forall2_Forall_impl_l; [eassumption|exact IH|].
    intros k w Hk Hrw. destruct k; [constructor|eauto|constructor].
Qed.

(** ** The traversal engine without handlers *)

Lemma plain_outcome_skip {A} fuel st (x : A) :
  plain_outcome 0 [] fuel st x (ret x st).
Proof.
  unfold plain_outcome. rewrite decide_True by lia.
  unfold ret. by rewrite app_nil_r, state_eta.
Qed.

(** Chaining two outcomes. *)
Lemma plain_outcome_seq {A B} fuel st h1 n1 h2 n2 (x : A) (y : B)
    (m : M A) (k : A → M B) :
  plain_outcome h1 n1 fuel st x (m st) →
  (∀ st', heap st' = heap st → plain_outcome h2 n2 fuel st' y (k x st')) →
  plain_outcome (h1 `max` h2) (n1 ++ n2) fuel st y (bind m k st).
Proof.
  unfold plain_outcome, bind. intros H1 H2.
  destruct (decide (h1 ≤ fuel)) as [Hle|Hgt].
  - rewrite H1.
    specialize (H2 (State (heap st) (trace st ++ (VRef <$> n1))) eq_refl).
    cbn [heap trace] in H2.
    destruct (decide (h2 ≤ fuel)).
    + rewrite decide_True by lia. by rewrite H2, fmap_app, app_assoc.
    + rewrite decide_False by lia. done.
  - rewrite decide_False by lia. destruct H1 as [tr ->]. eauto.
Qed.

Lemma visits_plainly_field t v fuel st :
  visits_plainly t → repr (heap st) t v →
  plain_outcome (height t) (preorder t) fuel st tt (visit_field (visit (NodeVisitor ∅) fuel) v st).
Proof.
  intros Ht Hr. specialize (Ht v fuel st Hr).
  destruct t; try done.
  inversion Hr; subst. unfold plain_outcome in *. cbn [visit_field]. unfold bind.
  destruct (decide _).
  - by rewrite Ht.
  - destruct Ht as [tr ->]. eauto.
Qed.

Lemma visit_items_plain fuel h items vs :
  Forall visits_plainly items →
  Forall2 (repr h) items vs →
  ∀ st, heap st = h →
  plain_outcome (height (TList items)) (preorder (TList items)) fuel st tt
    (for_each (visit_item (visit (NodeVisitor ∅) fuel)) vs st).
Proof.
  intros HP Hr.
  induction Hr as [|t v items vs Hrt _ IH]; intros st Hst.
  - apply plain_outcome_skip.
  - apply Forall_cons in HP as [HPt HPs]. cbn [for_each].
    change (height (TList (t :: items))) with
      (match t with TNode _ _ _ => height t | _ => 0 end `max` height (TList items)).
    change (preorder (TList (t :: items))) with
      (match t with TNode _ _ _ => preorder t | _ => [] end ++ preorder (TList items)).
    apply plain_outcome_seq with (x := tt).
    + subst h. destruct t; inversion Hrt; subst; cbn [is_tnode visit_item is_node].
      * apply plain_outcome_skip.
      * exact (visits_plainly_field _ _ fuel st HPt Hrt).
      * apply plain_outcome_skip.
    + intros st' Hst'. apply IH; [done|congruence].
Qed.

Lemma visit_fields_plain fuel h o names kids :
  Forall visits_plainly kids →
  Forall2 (fun f k => ∃ v, obj_attrs o !! f = Some v ∧ repr h k v) names kids →
  ∀ a st, heap st = h → h !! a = Some o →
  plain_outcome (max_list (map height kids)) (flat_map preorder kids) fuel st tt
    (for_fold (fun (_ : unit) field =>
                 val <- getattr (VRef a) field ;; visit_field (visit (NodeVisitor ∅) fuel) val)
       names tt st).
Proof.
  intros HP Hr a.
  induction Hr as [|f k names kids (v & Hv & Hrk) _ IH]; intros st Hst Ha.
  - apply plain_outcome_skip.
  - apply Forall_cons in HP as [HPk HPs]. cbn [for_fold map max_list flat_map].
    apply plain_outcome_seq with (x := tt).
    + unfold bind, getattr. rewrite Hst, Ha, Hv. subst h.
      by apply visits_plainly_field.
    + intros st' Hst'. apply IH; [done|congruence|done].
Qed.

(** The traversal engine without handlers, on every unfolding. *)
Lemma NodeVisitor_plain t : visits_plainly t.
Proof.
  induction t as [s|a c kids IH|items IH] using tree_nested_ind;
    intros v fuel st Hr; inversion Hr; subst.
  - apply plain_outcome_skip.
  - unfold plain_outcome. cbn [height preorder].
    destruct fuel as [|fuel].
    { rewrite decide_False by lia. exists (trace st).
      cbn [visit]. unfold raise. by rewrite state_eta. }
    pose proof (visit_fields_plain fuel (heap st) o _ _ IH ltac:(eassumption) a
      (State (heap st) (trace st ++ [VRef a])) eq_refl ltac:(eassumption)) as Hloop.
    unfold plain_outcome in Hloop. cbn [heap trace] in Hloop.
    assert (Hvisit : visit (NodeVisitor ∅) (S fuel) (VRef a) st =
      (for_fold (fun (_ : unit) field =>
                   val <- getattr (VRef a) field ;; visit_field (visit (NodeVisitor ∅) fuel) val)
         (cls_fields (obj_class o)) tt ;; ret (VScalar SNone))
        (State (heap st) (trace st ++ [VRef a]))).
    { cbn [visit]. unfold bind at 1. unfold log_visit.
      unfold bind at 1. unfold class_name. cbn [heap].
      match goal with H : heap st !! a = Some o |- _ => rewrite H end.
      cbn [methods generic_visit NodeVisitor]. rewrite lookup_empty.
      cbn [default]. unfold NodeVisitor_generic_visit. unfold bind at 1.
      rewrite for_fields_unfold. unfold fields.
      unfold bind, type_of, ret. cbn [heap].
      match goal with H : heap st !! a = Some o |- _ => by rewrite H end. }
    rewrite Hvisit.
    destruct (decide (max_list (map height kids) ≤ fuel)).
    + rewrite decide_True by lia. unfold bind at 1. rewrite Hloop. unfold ret.
      by rewrite <- app_assoc.
    + rewrite decide_False by lia. unfold bind at 1.
      destruct Hloop as [tr ->]. eauto.
  - cbn [visit_field]. by eapply visit_items_plain.
Qed.

(** ** The transformation engine without handlers *)

Lemma repr_prefix h h' t v : h `prefix_of` h' → repr h t v → repr h' t v.
Proof. intros [ext ->]. apply repr_mono. Qed.

Lemma rebuild_outcome_ret {A} fuel st (post : A → state → Prop) x :
  post x st → rebuild_outcome 0 [] fuel st post (ret x st).
Proof.
  intros Hp. unfold rebuild_outcome. rewrite decide_True by lia.
  exists x, st. by rewrite app_nil_r.
Qed.

Lemma rebuild_outcome_weaken {A} hgt nodes fuel st (P Q : A → state → Prop) r :
  (∀ x st', heap st `prefix_of` heap st' → P x st' → Q x st') →
  rebuild_outcome hgt nodes fuel st P r → rebuild_outcome hgt nodes fuel st Q r.
Proof.
  unfold rebuild_outcome. intros HPQ. destruct (decide _); [|done].
  intros (x & st' & -> & Hpre & Htr & HP). eauto 10.
Qed.

Lemma rebuild_outcome_seq {A B} fuel st h1 n1 h2 n2
    (P1 : A → state → Prop) (P : B → state → Prop) (m : M A) (k : A → M B) :
  rebuild_outcome h1 n1 fuel st P1 (m st) →
  (∀ x st1, heap st `prefix_of` heap st1 → P1 x st1 →
     rebuild_outcome h2 n2 fuel st1 P (k x st1)) →
  rebuild_outcome (h1 `max` h2) (n1 ++ n2) fuel st P (bind m k st).
Proof.
  unfold rebuild_outcome, bind. intros H1 H2.
  destruct (decide (h1 ≤ fuel)) as [Hle|Hgt].
  - destruct H1 as (x & st1 & -> & Hpre1 & Htr1 & HP1).
    specialize (H2 x st1 Hpre1 HP1).
    destruct (decide (h2 ≤ fuel)).
    + rewrite decide_True by lia.
      destruct H2 as (y & st2 & -> & Hpre2 & Htr2 & HP2).
      exists y, st2. split_and!; [done|by etrans| |done].
      by rewrite Htr2, Htr1, fmap_app, app_assoc.
    + rewrite decide_False by lia.
      destruct H2 as (st2 & -> & Hpre2). exists st2. split; [done|by etrans].
  - rewrite decide_False by lia. destruct H1 as (st1 & -> & Hpre1). eauto.
Qed.

Lemma rebuild_outcome_map {A B} hgt nodes fuel st
    (P1 : A → state → Prop) (P : B → state → Prop) (m : M A) (f : A → B) :
  rebuild_outcome hgt nodes fuel st P1 (m st) →
  (∀ x st', heap st `prefix_of` heap st' → P1 x st' → P (f x) st') →
  rebuild_outcome hgt nodes fuel st P (bind m (fun x => ret (f x)) st).
Proof.
  unfold rebuild_outcome, bind, ret. intros H1 HP.
  destruct (decide _).
  - destruct H1 as (x & st1 & -> & Hpre1 & Htr1 & HP1). eauto 10.
  - destruct H1 as (st1 & -> & Hpre1). eauto.
Qed.

Lemma preorder_item_Forall (P : addr → Prop) (t : tree) :
  Forall P (preorder t) →
  Forall P (match t with TNode _ _ _ => preorder t | _ => [] end).
Proof. destruct t; [constructor|done|constructor]. Qed.

Lemma preorder_item_NoDup (t : tree) :
  NoDup (preorder t) →
  NoDup (match t with TNode _ _ _ => preorder t | _ => [] end).
Proof. destruct t; [constructor|done|constructor]. Qed.

(** Nodes allocated one batch after the other are distinct. *)
Lemma NoDup_app_bounds (n : nat) (l k : list addr) :
  NoDup l → NoDup k →
  Forall (fun a => a < n) l → Forall (fun a => n ≤ a) k →
  NoDup (l ++ k).
Proof.
  intros Hl Hk Hlt Hge. apply NoDup_app. split_and!; [done| |done].
  intros x Hx Hx'. rewrite Forall_forall in Hlt, Hge.
  specialize (Hlt x Hx). specialize (Hge x Hx'). lia.
Qed.

Lemma transform_items_plain fuel h items vs :
  Forall rebuilds_plainly items →
  Forall2 (repr h) items vs →
  ∀ st acc, h `prefix_of` heap st →
  rebuild_outcome (height (TList items)) (preorder (TList items)) fuel st
    (fun new st' => ∃ items' vs',
       new = acc ++ vs' ∧ Forall2 (repr (heap st')) items' vs' ∧
       map shape_of items' = map shape_of items ∧
       Forall (fun a => length (heap st) ≤ a) (preorder (TList items')) ∧
       NoDup (preorder (TList items')))
    (for_fold (transform_item (visit (NodeTransformer ∅) fuel)) vs acc st).
Proof.
  intros HP Hr.
  induction Hr as [|t v items vs Hrt _ IH]; intros st acc Hst.
  - apply rebuild_outcome_ret. exists [], []. rewrite app_nil_r.
    split_and!; [done|constructor|done|constructor|constructor].
  - apply Forall_cons in HP as [HPt HPs]. cbn [for_fold].
    change (height (TList (t :: items))) with
      (match t with TNode _ _ _ => height t | _ => 0 end `max` height (TList items)).
    change (preorder (TList (t :: items))) with
      (match t with TNode _ _ _ => preorder t | _ => [] end ++ preorder (TList items)).
    eapply rebuild_outcome_seq with
      (P1 := fun new st' => ∃ t' v', new = acc ++ [v'] ∧ repr (heap st') t' v' ∧
               shape_of t' = shape_of t ∧
               Forall (fun a => length (heap st) ≤ a)
                 (match t' with TNode _ _ _ => preorder t' | _ => [] end) ∧
               NoDup (match t' with TNode _ _ _ => preorder t' | _ => [] end)).
    + pose proof (repr_prefix _ _ _ _ Hst Hrt) as Hrt'.
      destruct t; inversion Hrt'; subst; cbn [transform_item is_node].
      * apply rebuild_outcome_ret. eexists _, _.
        split_and!; [done..|constructor|constructor].
      * eapply rebuild_outcome_map; [exact (HPt _ fuel st Hrt')|].
        intros v' st' Hpre (t' & Hrt1 & Hsh & Hfresh & Hnd).
        exists t', v'. split_and!; [done..| |].
        -- by apply preorder_item_Forall.
        -- by apply preorder_item_NoDup.
      * apply rebuild_outcome_ret. eexists _, _.
        split_and!; [done..|constructor|constructor].
    + intros new st1 Hpre1 (t' & v' & -> & Hrt' & Hsh & Hfresh & Hnd).
      eapply rebuild_outcome_weaken; [|apply IH; [done|by etrans]].
      intros new st2 Hpre2 (items' & vs' & -> & Hrs & Hshs & Hfreshs & Hnds).
      change (preorder (TList (t' :: items'))) with
        (match t' with TNode _ _ _ => preorder t' | _ => [] end ++
         preorder (TList items')).
      exists (t' :: items'), (v' :: vs'). split_and!.
      * by rewrite <- app_assoc.
      * constructor; [by eapply repr_prefix|done].
      * simpl. by rewrite Hsh, Hshs.
      * apply Forall_app. split; [done|].
        eapply Forall_impl; [exact Hfreshs|]. simpl. intros a Ha.
        apply prefix_length in Hpre1. lia.
      * apply (NoDup_app_bounds (length (heap st1))); [done..| |done].
        apply preorder_item_Forall. by eapply repr_bound.
Qed.

Lemma transform_fields_plain fuel h o names kids :
  Forall rebuilds_plainly kids →
  Forall2 (fun f k => ∃ v, obj_attrs o !! f = Some v ∧ repr h k v) names kids →
  NoDup names →
  ∀ a st (kw : gmap string value), h `prefix_of` heap st → h !! a = Some o →
  rebuild_outcome (max_list (map height kids)) (flat_map preorder kids) fuel st
    (fun kw' st' => ∃ kids',
       dom kw' = dom kw ∪ list_to_set names ∧
       (∀ f, f ∉ names → kw' !! f = kw !! f) ∧
       Forall2 (fun f k' => ∃ v', kw' !! f = Some v' ∧ repr (heap st') k' v')
         names kids' ∧
       map shape_of kids' = map shape_of kids ∧
       Forall (fun a => length (heap st) ≤ a) (flat_map preorder kids') ∧
       NoDup (flat_map preorder kids'))
    (for_fold (fun kw field =>
                 val <- getattr (VRef a) field ;;
                 new_val <- transform_field (visit (NodeTransformer ∅) fuel) val ;;
                 ret (<[field := new_val]> kw))
       names kw st).
Proof.
  intros HP Hr Hnd a.
  induction Hr as [|f k names kids (v & Hv & Hrk) _ IH]; intros st kw Hst Ha.
  - apply rebuild_outcome_ret. exists []. split_and!; try done.
    + set_solver.
    + constructor.
  - apply Forall_cons in HP as [HPk HPs]. apply NoDup_cons in Hnd as [Hf Hnd].
    cbn [for_fold map max_list flat_map].
    eapply rebuild_outcome_seq with
      (P1 := fun kw1 st1 => ∃ k' v', kw1 = <[f := v']> kw ∧ repr (heap st1) k' v' ∧
               shape_of k' = shape_of k ∧
               Forall (fun a => length (heap st) ≤ a) (preorder k') ∧
               NoDup (preorder k')).
    + unfold bind at 1. unfold getattr.
      rewrite (prefix_lookup_Some _ _ _ _ Ha Hst), Hv.
      eapply rebuild_outcome_map;
        [exact (HPk _ fuel st (repr_prefix _ _ _ _ Hst Hrk))|].
      intros v' st' Hpre (t' & Hrt1 & Hsh & Hfresh & Hnd1).
      exists t', v'. by split_and!.
    + intros kw1 st1 Hpre1 (k' & v' & -> & Hrk' & Hsh & Hfresh & Hnd1).
      eapply rebuild_outcome_weaken; [|apply IH; [done|done|by etrans|done]].
      intros kw2 st2 Hpre2 (kids' & Hdom & Hout & Hrs & Hshs & Hfreshs & Hnds).
      exists (k' :: kids'). split_and!.
      * rewrite Hdom, dom_insert_L. set_solver.
      * intros g Hg. apply not_elem_of_cons in Hg as [Hgf Hg].
        by rewrite Hout, lookup_insert_ne.
      * constructor; [|done]. exists v'. split; [|by eapply repr_prefix].
        by rewrite Hout, lookup_insert_eq.
      * simpl. by rewrite Hsh, Hshs.
      * simpl. apply Forall_app. split; [done|].
        eapply Forall_impl; [exact Hfreshs|]. simpl. intros b Hb.
        apply prefix_length in Hpre1. lia.
      * simpl. apply (NoDup_app_bounds (length (heap st1))); [done..| |done].
        by eapply repr_bound.
Qed.

(** The transformation engine without handlers, on every unfolding. *)
Lemma NodeTransformer_plain t : rebuilds_plainly t.
Proof.
  induction t as [s|a c kids IH|items IH] using tree_nested_ind;
    intros v fuel st Hr; inversion Hr; subst.
  - apply rebuild_outcome_ret. exists (TScalar s).
    split_and!; [done..|constructor|constructor].
  - rename H2 into Ha, H4 into Hnd, H5 into Hkids.
    cbn [height preorder transform_field].
    destruct fuel as [|fuel].
    { unfold rebuild_outcome. rewrite decide_False by lia. exists st. done. }
    assert (Hvisit : visit (NodeTransformer ∅) (S fuel) (VRef a) st =
      (new_kwargs <-
         for_fold (fun kw field =>
                     val <- getattr (VRef a) field ;;
                     new_val <- transform_field (visit (NodeTransformer ∅) fuel) val ;;
                     ret (<[field := new_val]> kw))
           (cls_fields (obj_class o)) (∅ : gmap string value) ;;
       cls <- type_of (VRef a) ;;
       construct cls new_kwargs)
        (State (heap st) (trace st ++ [VRef a]))).
    { cbn [visit]. unfold bind at 1. unfold log_visit.
      unfold bind at 1. unfold class_name. cbn [heap]. rewrite Ha.
      cbn [methods generic_visit NodeTransformer]. rewrite lookup_empty.
      cbn [default]. unfold NodeTransformer_generic_visit. unfold bind at 1.
      rewrite for_fields_unfold. unfold fields.
      unfold bind, type_of, ret. cbn [heap]. by rewrite Ha. }
    rewrite Hvisit. clear Hvisit.
    pose proof (transform_fields_plain fuel (heap st) o _ _ IH Hkids Hnd a
      (State (heap st) (trace st ++ [VRef a])) ∅ ltac:(done) Ha) as Hloop.
    unfold rebuild_outcome in *. cbn [heap trace] in Hloop.
    destruct (decide (max_list (map height kids) ≤ fuel)).
    + rewrite decide_True by lia. unfold bind at 1.
      destruct Hloop as (kw & st1 & -> & Hpre1 & Htr1 & kids' & Hdom & _ & Hrs & Hsh &
                         Hfresh & Hnds).
      unfold bind, type_of. rewrite (prefix_lookup_Some _ _ _ _ Ha Hpre1).
      unfold construct. rewrite bool_decide_eq_true_2 by (rewrite Hdom; set_solver).
      eexists _, _. split; [done|]. cbn [heap trace]. split_and!.
      * etrans; [exact Hpre1|]. by apply prefix_app_r.
      * by rewrite Htr1, <- app_assoc.
      * exists (TNode (length (heap st1)) (obj_class o) kids'). split_and!.
        -- apply (repr_node _ _ (Obj (obj_class o) kw)).
           ++ cbn [heap]. by apply list_lookup_middle.
           ++ done.
           ++ eapply Forall2_impl; [exact Hrs|]. cbn.
              intros f k' (v' & Hv' & Hr'). exists v'. split; [done|].
              by apply repr_mono.
        -- simpl. by rewrite Hsh.
        -- simpl. constructor; [by apply prefix_length|done].
        -- simpl. apply NoDup_cons. split; [|done].
           assert (Hlt : Forall (fun b => b < length (heap st1))
                           (flat_map preorder kids')).
           { apply Forall_flat_map_intro.
             eapply (Forall2_Forall_impl_r _ (fun _ => True));
               [exact Hrs|by apply Forall_true|].
             intros f k' _ (v' & _ & Hr'). by eapply repr_bound. }
           rewrite Forall_forall in Hlt. intros Hin. specialize (Hlt _ Hin). lia.
    + rewrite decide_False by lia. unfold bind at 1.
      destruct Hloop as (st1 & -> & Hpre1). eauto.
  - cbn [transform_field].
    eapply rebuild_outcome_map; [by eapply transform_items_plain|].
    intros new st' Hpre (items' & vs' & -> & Hrs & Hsh & Hfresh & Hnds).
    exists (TList items'). split_and!; [by constructor| |done|done].
    simpl. by rewrite Hsh.
Qed.

(** ** What the engines do to the store, whatever the handlers *)

Section frame.
Variable R : state → state → Prop.
Hypothesis R_refl : ∀ st, R st st.
Hypothesis R_trans : ∀ st1 st2 st3, R st1 st2 → R st2 st3 → R st1 st3.
Hypothesis R_log : ∀ st tr, R st (State (heap st) tr).

Lemma preserves_ret {A} (x : A) : preserves R (ret x).
Proof. intros st. apply R_refl. Qed.

Lemma preserves_raise {A} e : preserves R (raise e : M A).
Proof. intros st. apply R_refl. Qed.

Lemma preserves_bind {A B} (m : M A) (k : A → M B) :
  preserves R m → (∀ x, preserves R (k x)) → preserves R (bind m k).
Proof.
  intros Hm Hk st. unfold bind. specialize (Hm st).
  destruct (m st) as [x st'|e st']; [|done].
  eapply R_trans; [exact Hm|apply Hk].
Qed.

Lemma preserves_for_each {A} (body : A → M unit) l :
  (∀ x, preserves R (body x)) → preserves R (for_each body l).
Proof.
  intros Hb. induction l; simpl; [apply preserves_ret|].
  apply preserves_bind; auto.
Qed.

Lemma preserves_for_fold {A B} (body : B → A → M B) l :
  (∀ acc x, preserves R (body acc x)) → ∀ acc, preserves R (for_fold body l acc).
Proof.
  intros Hb. induction l; intros acc; simpl; [apply preserves_ret|].
  apply preserves_bind; auto.
Qed.

Lemma preserves_class_name node : preserves R (class_name node).
Proof.
  intros st. unfold class_name.
  destruct node as [[]|a|]; try apply R_refl.
  destruct (heap st !! a); apply R_refl.
Qed.

Lemma preserves_type_of node : preserves R (type_of node).
Proof.
  intros st. unfold type_of.
  destruct node as [|a|]; try apply R_refl.
  destruct (heap st !! a); apply R_refl.
Qed.

Lemma preserves_getattr node name : preserves R (getattr node name).
Proof.
  intros st. unfold getattr.
  destruct node as [|a|]; try apply R_refl.
  destruct (heap st !! a) as [o|]; [|apply R_refl].
  destruct (obj_attrs o !! name); apply R_refl.
Qed.

Lemma preserves_for_fields {B} (body : B → string → value → M B) node acc :
  (∀ acc f v, preserves R (body acc f v)) → preserves R (for_fields body node acc).
Proof.
  intros Hb st. rewrite for_fields_unfold. revert st.
  change (preserves R
            (names <- fields node ;;
             for_fold (fun acc field => val <- getattr node field ;; body acc field val)
               names acc)).
  unfold fields.
  repeat first [apply preserves_bind; [|intros ?] | apply preserves_type_of
               | apply preserves_ret | apply preserves_for_fold; intros ? ?
               | apply preserves_getattr | apply Hb].
Qed.

Lemma preserves_NodeVisitor_generic_visit :
  method_preserves R NodeVisitor_generic_visit.
Proof.
  intros self Hself node. unfold NodeVisitor_generic_visit.
  apply preserves_bind; [|intros; apply preserves_ret].
  apply preserves_for_fields. intros _ f v. unfold visit_field.
  destruct v as [s|a|items].
  - apply preserves_ret.
  - apply preserves_bind; [apply Hself|intros; apply preserves_ret].
  - apply preserves_for_each. intros item. unfold visit_item.
    destruct (is_node item); [|apply preserves_ret].
    apply preserves_bind; [apply Hself|intros; apply preserves_ret].
Qed.

Lemma preserves_transform_field self val :
  (∀ v, preserves R (self v)) → preserves R (transform_field self val).
Proof.
  intros Hself. unfold transform_field. destruct val as [s|a|items].
  - apply preserves_ret.
  - apply Hself.
  - apply preserves_bind; [|intros; apply preserves_ret].
    apply preserves_for_fold. intros acc item. unfold transform_item.
    destruct (is_node item); [|apply preserves_ret].
    apply preserves_bind; [apply Hself|intros; apply preserves_ret].
Qed.

(** The constructor allocates: it is the one step that needs more of [R]. *)
Hypothesis R_alloc : ∀ st o, R st (State (heap st ++ [o]) (trace st)).

Lemma preserves_construct cls kwargs : preserves R (construct cls kwargs).
Proof.
  intros st. unfold construct. case_bool_decide; [apply R_alloc|apply R_refl].
Qed.

Lemma preserves_NodeTransformer_generic_visit :
  method_preserves R NodeTransformer_generic_visit.
Proof.
  intros self Hself node. unfold NodeTransformer_generic_visit.
  apply preserves_bind; [|intros kw].
  - apply preserves_for_fields. intros kw f v.
    apply preserves_bind; [by apply preserves_transform_field|].
    intros; apply preserves_ret.
  - apply preserves_bind; [apply preserves_type_of|].
    intros; apply preserves_construct.
Qed.

(** [visit] respects [R] when [generic_visit] and the handlers do. *)
Lemma preserves_visit (V : visitor) :
  method_preserves R (generic_visit V) →
  map_Forall (fun _ h => method_preserves R h) (methods V) →
  ∀ fuel node, preserves R (visit V fuel node).
Proof.
  intros Hg Hh. induction fuel as [|fuel IH]; intros node; cbn [visit].
  - apply preserves_raise.
  - apply preserves_bind; [intros st; apply R_log|intros _].
    apply preserves_bind; [apply preserves_class_name|intros name].
    destruct (methods V !! ("visit_" +:+ name)) as [h|] eqn:Hm; cbn [default].
    + by apply (Hh _ _ Hm).
    + by apply Hg.
Qed.

End frame.

(** ** NodeTransformer.generic_visit, whatever the handlers *)

Lemma extended_store_refl st : extended_store st st.
Proof. by unfold extended_store. Qed.

Lemma extended_store_trans st1 st2 st3 :
  extended_store st1 st2 → extended_store st2 st3 → extended_store st1 st3.
Proof. unfold extended_store. by etrans. Qed.

Section generic_visit_spec.
Variable self : value → M value.
Hypothesis self_extends : ∀ v, preserves extended_store (self v).
Variable h0 : list obj.

Lemma transform_items_spec items : ∀ acc st,
  h0 `prefix_of` heap st →
  match for_fold (transform_item self) items acc st with
  | Ok new st' => ∃ rs, new = acc ++ rs ∧ Forall2 (item_result h0 self) items rs
  | Err e st' => ∃ v, v ∈ items ∧ is_node v = true ∧ raised_on h0 self v e st'
  end.
Proof.
  induction items as [|item items IH]; intros acc st Hst; cbn [for_fold].
  - exists []. by rewrite app_nil_r.
  - unfold bind at 1. unfold transform_item.
    destruct (is_node item) eqn:Hitem.
    + unfold bind, ret. pose proof (self_extends item st) as Hext.
      destruct (self item st) as [r st1|e st1] eqn:Hself.
      * cbn [final_state] in Hext. unfold extended_store in Hext.
        specialize (IH (acc ++ [r]) st1 ltac:(by etrans)).
        destruct (for_fold _ items _ st1) as [new st2|e st2].
        2:{ destruct IH as (v & Hv & Hnode & Hraise). exists v.
            split; [by apply elem_of_cons; right|done]. }
        destruct IH as (rs & -> & Hrs). exists (r :: rs). split.
        -- by rewrite <- app_assoc.
        -- constructor; [|done]. unfold item_result. rewrite Hitem. eauto.
      * exists item. split_and!; [by apply elem_of_cons; left|done|by exists st].
    + unfold ret. specialize (IH (acc ++ [item]) st Hst).
      destruct (for_fold _ items _ st) as [new st2|e st2].
      2:{ destruct IH as (v & Hv & Hnode & Hraise). exists v.
          split; [by apply elem_of_cons; right|done]. }
      destruct IH as (rs & -> & Hrs). exists (item :: rs). split.
      * by rewrite <- app_assoc.
      * constructor; [|done]. unfold item_result. by rewrite Hitem.
Qed.

Lemma transform_field_spec val st :
  h0 `prefix_of` heap st →
  match transform_field self val st with
  | Ok r st' => field_result h0 self val r
  | Err e st' => ∃ v, held_by val v ∧ is_node v = true ∧ raised_on h0 self v e st'
  end.
Proof.
  intros Hst. destruct val as [s|a|items]; cbn [transform_field field_result].
  - done.
  - destruct (self (VRef a) st) as [r st'|e st'] eqn:Hself; [eauto|].
    exists (VRef a). split_and!; [by left|done|by exists st].
  - unfold bind, ret. pose proof (transform_items_spec items [] st Hst) as H.
    destruct (for_fold _ items _ st) as [new st'|e st'].
    + destruct H as (rs & -> & Hrs). eauto.
    + destruct H as (v & Hv & Hnode & Hraise). exists v.
      split_and!; [right; eauto|done|done].
Qed.

Lemma transform_field_extends val : preserves extended_store (transform_field self val).
Proof.
  apply preserves_transform_field; auto using extended_store_refl.
  apply extended_store_trans.
Qed.

Lemma transform_fields_spec a o names :
  NoDup names →
  Forall (fun f => is_Some (obj_attrs o !! f)) names →
  ∀ st (kw : gmap string value), heap st !! a = Some o → h0 `prefix_of` heap st →
  match
    for_fold (fun kw field =>
                val <- getattr (VRef a) field ;;
                new_val <- transform_field self val ;;
                ret (<[field := new_val]> kw))
      names kw st
  with
  | Ok kw' st' =>
      heap st `prefix_of` heap st' ∧
      dom kw' = dom kw ∪ list_to_set names ∧
      (∀ f, f ∉ names → kw' !! f = kw !! f) ∧
      ∀ f val, f ∈ names → obj_attrs o !! f = Some val →
        ∃ r, kw' !! f = Some r ∧ field_result h0 self val r
  | Err e st' =>
      ∃ f val v, f ∈ names ∧ obj_attrs o !! f = Some val ∧ held_by val v ∧
                 is_node v = true ∧ raised_on h0 self v e st'
  end.
Proof.
  intros Hnd Hattrs.
  induction names as [|g names IH]; intros st kw Ha Hst; cbn [for_fold].
  - split_and!; try done.
    + set_solver.
    + intros f val Hf. by apply elem_of_nil in Hf.
  - apply NoDup_cons in Hnd as [Hg Hnd].
    apply Forall_cons in Hattrs as [[val Hval] Hattrs].
    unfold bind at 1. unfold bind at 1. unfold getattr. rewrite Ha, Hval.
    unfold bind at 1.
    pose proof (transform_field_spec val st Hst) as Hspec.
    pose proof (transform_field_extends val st) as Hext.
    destruct (transform_field self val st) as [r st1|e st1].
    2:{ destruct Hspec as (v & Hv & Hnode & Hraise). exists g, val, v.
        split_and!; [by apply elem_of_cons; left|done..]. }
    unfold ret at 1. cbn [final_state] in Hext. unfold extended_store in Hext.
    specialize (IH Hnd Hattrs st1 (<[g := r]> kw) (prefix_lookup_Some _ _ _ _ Ha Hext)
                  ltac:(by etrans)).
    destruct (for_fold _ names _ st1) as [kw' st2|e st2].
    2:{ destruct IH as (f & val' & v & Hf & Hval' & Hheld & Hnode & Hraise).
        exists f, val', v. split_and!; [by apply elem_of_cons; right|done..]. }
    destruct IH as (Hpre & Hdom & Hout & Hin). split_and!.
    + by etrans.
    + rewrite Hdom, dom_insert_L. set_solver.
    + intros f Hf. apply not_elem_of_cons in Hf as [Hfg Hf].
      by rewrite Hout, lookup_insert_ne.
    + intros f val' Hf Hval'. apply elem_of_cons in Hf as [->|Hf]; [|eauto].
      assert (val' = val) as -> by congruence.
      exists r. split; [|done]. by rewrite Hout, lookup_insert_eq.
Qed.

(** [NodeTransformer.generic_visit] on a dataclass instance: it returns a
    new instance of the same class, whose attributes are the declared
    fields, each with what its value has become; or it lets through an
    exception of [self.visit]. *)
Lemma NodeTransformer_generic_visit_spec a o st :
  heap st !! a = Some o →
  h0 `prefix_of` heap st →
  dataclass_instance o →
  match NodeTransformer_generic_visit self (VRef a) st with
  | Ok v' st' =>
      ∃ kw st1,
        v' = VRef (length (heap st1)) ∧
        st' = State (heap st1 ++ [Obj (obj_class o) kw]) (trace st1) ∧
        heap st `prefix_of` heap st1 ∧
        dom kw = list_to_set (cls_fields (obj_class o)) ∧
        ∀ f val, f ∈ cls_fields (obj_class o) → obj_attrs o !! f = Some val →
          ∃ r, kw !! f = Some r ∧ field_result h0 self val r
  | Err e st' => raised_by h0 self o e st'
  end.
Proof.
  intros Ha Hst [Hnd Hattrs].
  unfold NodeTransformer_generic_visit. unfold bind at 1.
  rewrite for_fields_unfold. unfold fields.
  unfold bind at 1. unfold bind at 1. unfold bind at 1.
  unfold type_of at 1. rewrite Ha. unfold ret at 1.
  pose proof (transform_fields_spec a o _ Hnd Hattrs st ∅ Ha Hst) as Hloop.
  destruct (for_fold _ _ _ st) as [kw st1|e st1].
  2:{ destruct Hloop as (f & val & v & Hf & Hval & Hheld & Hnode & Hraise).
      exists v. split; [|done]. split; [done|]. eauto. }
  destruct Hloop as (Hpre & Hdom & _ & Hin).
  unfold bind, type_of. rewrite (prefix_lookup_Some _ _ _ _ Ha Hpre).
  unfold construct. rewrite bool_decide_eq_true_2 by (rewrite Hdom; set_solver).
  exists kw, st1. split_and!; try done.
  rewrite Hdom. set_solver.
Qed.

End generic_visit_spec.

(** * The properties of the specification *)

(** ** Plain traversal *)

Lemma max_list_app (l k : list nat) :
  max_list (l ++ k) = max_list l `max` max_list k.
Proof. induction l as [|n l IH]; simpl; [done|]. rewrite IH. unfold id. lia. Qed.

Lemma item_children_preorder items :
  flat_map preorder
    (flat_map (fun i => match i with TNode _ _ _ => [i] | _ => [] end) items) =
  preorder (TList items).
Proof.
  induction items as [|i items IH]; [done|].
  cbn [flat_map]. rewrite flat_map_app, IH.
  destruct i; cbn [flat_map preorder app]; by rewrite ?app_nil_r.
Qed.

Lemma item_children_height items :
  max_list (height <$>
    flat_map (fun i => match i with TNode _ _ _ => [i] | _ => [] end) items) =
  height (TList items).
Proof.
  induction items as [|i items IH]; [done|].
  cbn [flat_map]. rewrite fmap_app, max_list_app, IH.
  destruct i; simpl; unfold id; lia.
Qed.

(** Pre-order, by children: a node, then its children one after the other,
    each with its descendants. *)
Lemma preorder_children a c kids :
  preorder (TNode a c kids) = a :: flat_map preorder (children (TNode a c kids)).
Proof.
  cbn [preorder children]. f_equal.
  induction kids as [|k kids IH]; [done|].
  cbn [flat_map]. rewrite flat_map_app, <- IH. f_equal.
  destruct k as [s|b d l|items].
  - done.
  - cbn [flat_map]. by rewrite app_nil_r.
  - by rewrite item_children_preorder.
Qed.

(** The height of a node is one more than that of its highest child. *)
Lemma height_children a c kids :
  height (TNode a c kids) = S (max_list (height <$> children (TNode a c kids))).
Proof.
  cbn [height children]. f_equal.
  induction kids as [|k kids IH]; [done|].
  cbn [flat_map map max_list]. rewrite fmap_app, max_list_app, <- IH. f_equal.
  destruct k as [s|b d l|items].
  - done.
  - simpl. unfold id. lia.
  - by rewrite item_children_height.
Qed.

Lemma filter_eq_absent {A} `{EqDecision A} (l : list A) x :
  x ∉ l → filter (fun y => y = x) l = [].
Proof.
  induction l as [|y l IH]; [done|]. intros Hx.
  apply not_elem_of_cons in Hx as [Hxy Hx].
  rewrite filter_cons_False by congruence. auto.
Qed.

(** In a list without duplicates an element is there once. *)
Lemma NoDup_occurs_once {A} `{EqDecision A} (l : list A) x :
  NoDup l → x ∈ l → length (filter (fun y => y = x) l) = 1.
Proof.
  induction l as [|y l IH]; intros Hnd Hx; [by apply elem_of_nil in Hx|].
  apply NoDup_cons in Hnd as [Hy Hnd].
  destruct (decide (y = x)) as [->|Hne].
  - rewrite filter_cons_True by done. cbn [length].
    by rewrite filter_eq_absent.
  - rewrite filter_cons_False by done.
    apply elem_of_cons in Hx as [->|Hx]; [done|auto].
Qed.

(** C1. Completeness of the plain traversal: on a tree (an unfolding whose
    nodes are distinct: no node under two parents), [NodeVisitor.visit]
    without handlers returns, and the calls of [visit] that it has logged
    are those on the nodes of the tree, each exactly once, in pre-order: a
    node, then its children in the declared order of its fields and, within
    a list, in list order. *)
Theorem C1_plain_traversal_preorder (t : tree) (st : state) (node : value) (fuel : nat) :
  repr (heap st) t node →
  is_tnode t = true →
  NoDup (preorder t) →
  height t ≤ fuel →
  ∃ st' visited,
    visit (NodeVisitor ∅) fuel node st = Ok (VScalar SNone) st' ∧
    trace st' = trace st ++ visited ∧
    visited = VRef <$> preorder t ∧
    visited = node :: (VRef <$> flat_map preorder (children t)) ∧
    (∀ a, a ∈ preorder t → length (filter (fun v => v = VRef a) visited) = 1).
Proof.
  intros Hr Ht Hnd Hfuel.
  pose proof (NodeVisitor_plain t node fuel st Hr) as H.
  destruct t as [|a c kids|]; try discriminate.
  unfold plain_outcome in H. rewrite decide_True in H by done.
  eexists _, _. split; [exact H|]. cbn [trace]. split; [done|]. split; [done|].
  assert (Hinj : Inj (=) (=) VRef) by (intros x y; congruence).
  split.
  - inversion Hr; subst. by rewrite preorder_children.
  - intros b Hb. apply NoDup_occurs_once.
    + by apply (NoDup_fmap_2 VRef).
    + by apply list_elem_of_fmap_2.
Qed.

Lemma C1_plain_traversal_preorder_witness :
  ∃ st' visited,
    visit (NodeVisitor ∅) 3 (VRef 5) Examples.st0 = Ok (VScalar SNone) st' ∧
    trace st' = trace Examples.st0 ++ visited ∧
    visited = VRef <$> preorder Examples.tree0 ∧
    visited = VRef 5 :: (VRef <$> flat_map preorder (children Examples.tree0)) ∧
    (∀ a, a ∈ preorder Examples.tree0 →
       length (filter (fun v => v = VRef a) visited) = 1).
Proof.
  apply (C1_plain_traversal_preorder Examples.tree0 Examples.st0 (VRef 5) 3).
  - apply reprb_sound. vm_compute. reflexivity.
  - reflexivity.
  - apply (bool_decide_unpack _). vm_compute. exact I.
  - vm_compute. lia.
Defined.

(** ** Identity round trip *)

(** C2. On an unfolding [t] of its argument, [NodeTransformer.visit] without
    handlers returns a node that unfolds to a tree of the same shape as [t]
    (the same kinds and the same field values in the same order at every
    position) and made of new instances: none of its nodes is in the store
    that the call started in, and they are distinct. *)
Theorem C2_identity_round_trip (t : tree) (st : state) (node : value) (fuel : nat) :
  repr (heap st) t node →
  is_tnode t = true →
  height t ≤ fuel →
  ∃ node' st' t',
    visit (NodeTransformer ∅) fuel node st = Ok node' st' ∧
    repr (heap st') t' node' ∧
    shape_of t' = shape_of t ∧
    (∀ a, a ∈ preorder t' → heap st !! a = None) ∧
    NoDup (preorder t').
Proof.
  intros Hr Ht Hfuel.
  pose proof (NodeTransformer_plain t node fuel st Hr) as H.
  unfold rebuild_outcome in H. rewrite decide_True in H by done.
  destruct H as (node' & st' & Hrun & Hpre & Htr & t' & Hr' & Hsh & Hfresh & Hnd).
  destruct t as [|a c kids|]; try discriminate. cbn [transform_field] in Hrun.
  inversion Hr; subst.
  exists node', st', t'. split_and!; try done.
  intros b Hb. rewrite Forall_forall in Hfresh.
  apply lookup_ge_None. by apply Hfresh.
Qed.

Lemma C2_identity_round_trip_witness :
  ∃ node' st' t',
    visit (NodeTransformer ∅) 3 (VRef 5) Examples.st0 = Ok node' st' ∧
    repr (heap st') t' node' ∧
    shape_of t' = shape_of Examples.tree0 ∧
    (∀ a, a ∈ preorder t' → heap Examples.st0 !! a = None) ∧
    NoDup (preorder t').
Proof.
  apply (C2_identity_round_trip Examples.tree0 Examples.st0 (VRef 5) 3).
  - apply reprb_sound. vm_compute. reflexivity.
  - reflexivity.
  - vm_compute. lia.
Defined.

(** ** Termination *)

(** C8. A value that unfolds to a finite tree is the root of an acyclic
    structure.  On it both engines without handlers terminate, and the depth
    of the recursion is the height of the tree: [visit] returns whenever the
    bound on nested activations is at least the height, and with any smaller
    bound it stops with a [RecursionError].  A node without child nodes has
    height one, so it ends the recursion; a loop over an empty list does
    nothing. *)
Theorem C8_terminates_at_tree_depth (t : tree) (st : state) (node : value) :
  repr (heap st) t node →
  is_tnode t = true →
  (∀ fuel, height t ≤ fuel →
     (∃ st', visit (NodeVisitor ∅) fuel node st = Ok (VScalar SNone) st') ∧
     (∃ node' st', visit (NodeTransformer ∅) fuel node st = Ok node' st')) ∧
  (∀ fuel, fuel < height t →
     (∃ st', visit (NodeVisitor ∅) fuel node st = Err RecursionError st') ∧
     (∃ st', visit (NodeTransformer ∅) fuel node st = Err RecursionError st')) ∧
  (children t = [] → height t = 1) ∧
  (∀ self st1, visit_field self (VList []) st1 = Ok tt st1 ∧
               transform_field self (VList []) st1 = Ok (VList []) st1).
Proof.
  intros Hr Ht.
  pose proof (NodeVisitor_plain t node) as Hv.
  pose proof (NodeTransformer_plain t node) as Hx.
  destruct t as [|a c kids|]; try discriminate.
  inversion Hr; subst. cbn [transform_field] in Hx.
  split_and!.
  - intros fuel Hfuel. specialize (Hv fuel st Hr). specialize (Hx fuel st Hr).
    unfold plain_outcome in Hv. unfold rebuild_outcome in Hx.
    rewrite decide_True in Hv, Hx by done. split; [eauto|].
    destruct Hx as (node' & st' & Hrun & _). eauto.
  - intros fuel Hfuel. specialize (Hv fuel st Hr). specialize (Hx fuel st Hr).
    unfold plain_outcome in Hv. unfold rebuild_outcome in Hx.
    rewrite decide_False in Hv, Hx by lia. split.
    + destruct Hv as [tr Hv]. eauto.
    + destruct Hx as (st' & Hrun & _). eauto.
  - intros Hleaf. by rewrite height_children, Hleaf.
  - done.
Qed.

Lemma C8_terminates_at_tree_depth_witness :
  (∀ fuel, height Examples.tree0 ≤ fuel →
     (∃ st', visit (NodeVisitor ∅) fuel (VRef 5) Examples.st0 = Ok (VScalar SNone) st') ∧
     (∃ node' st', visit (NodeTransformer ∅) fuel (VRef 5) Examples.st0 = Ok node' st')) ∧
  (∀ fuel, fuel < height Examples.tree0 →
     (∃ st', visit (NodeVisitor ∅) fuel (VRef 5) Examples.st0 = Err RecursionError st') ∧
     (∃ st', visit (NodeTransformer ∅) fuel (VRef 5) Examples.st0 = Err RecursionError st')) ∧
  (children Examples.tree0 = [] → height Examples.tree0 = 1) ∧
  (∀ self st1, visit_field self (VList []) st1 = Ok tt st1 ∧
               transform_field self (VList []) st1 = Ok (VList []) st1).
Proof.
  apply (C8_terminates_at_tree_depth Examples.tree0 Examples.st0 (VRef 5)).
  - apply reprb_sound. vm_compute. reflexivity.
  - reflexivity.
Defined.

(** ** The input is left as it was *)

Lemma NodeTransformer_visit_extends (hs : gmap string method) (fuel : nat) :
  map_Forall (fun _ h => method_preserves extended_store h) hs →
  ∀ v, preserves extended_store (visit (NodeTransformer hs) fuel v).
Proof.
  intros Hhs.
  apply (preserves_visit extended_store extended_store_refl extended_store_trans);
    [by intros st tr; unfold extended_store| |done].
  apply (preserves_NodeTransformer_generic_visit extended_store extended_store_refl
           extended_store_trans).
  intros st o. by apply prefix_app_r.
Qed.

(** C6. Neither engine changes an instance of the store it is started in,
    whether it returns or raises, provided its handlers do not either: after
    [NodeVisitor.visit] the store is the one before (nothing is changed and
    nothing is built); after [NodeTransformer.visit] every instance of the
    store before is at its address, as it was (what is built is added), so
    that a value unfolds to the tree it unfolded to before. *)
Theorem C6_input_unchanged (hs : gmap string method) (fuel : nat) (node : value)
    (st : state) :
  (map_Forall (fun _ h => method_preserves same_store h) hs →
   heap (final_state (visit (NodeVisitor hs) fuel node st)) = heap st) ∧
  (map_Forall (fun _ h => method_preserves extended_store h) hs →
   (∀ a o, heap st !! a = Some o →
           heap (final_state (visit (NodeTransformer hs) fuel node st)) !! a = Some o) ∧
   (∀ t v, repr (heap st) t v →
           repr (heap (final_state (visit (NodeTransformer hs) fuel node st))) t v)).
Proof.
  split.
  - intros Hhs.
    apply (preserves_visit same_store) with (V := NodeVisitor hs); unfold same_store;
      try done.
    + congruence.
    + by apply preserves_NodeVisitor_generic_visit; unfold same_store; try congruence.
  - intros Hhs.
    pose proof (NodeTransformer_visit_extends hs fuel Hhs node st) as Hext.
    split.
    + intros a o Ha. by eapply prefix_lookup_Some.
    + intros t v Hr. by eapply repr_prefix.
Qed.

Lemma C6_input_unchanged_witness :
  heap (final_state (visit (NodeVisitor Examples.same_Literal) 3 (VRef 5) Examples.st0)) =
    heap Examples.st0 ∧
  (∀ a o, heap Examples.st0 !! a = Some o →
     heap (final_state
             (visit (NodeTransformer Examples.same_Literal) 3 (VRef 5) Examples.st0)) !! a =
       Some o) ∧
  (∀ t v, repr (heap Examples.st0) t v →
     repr (heap (final_state
                   (visit (NodeTransformer Examples.same_Literal) 3 (VRef 5) Examples.st0)))
       t v).
Proof.
  destruct (C6_input_unchanged Examples.same_Literal 3 (VRef 5) Examples.st0) as [H1 H2].
  split; [apply H1|apply H2]; apply map_Forall_singleton; intros self Hself v st;
    [reflexivity|apply extended_store_refl].
Defined.

(** ** Dispatch *)

(** [visit] on a node: the call is logged, then the method named after the
    class of the node runs, or [generic_visit] when the visitor has none. *)
Lemma visit_dispatch (V : visitor) (fuel : nat) (a : addr) (o : obj) (st : state) :
  heap st !! a = Some o →
  visit V (S fuel) (VRef a) st =
  default (generic_visit V) (methods V !! ("visit_" +:+ cls_name (obj_class o)))
    (visit V fuel) (VRef a) (State (heap st) (trace st ++ [VRef a])).
Proof.
  intros Ha. cbn [visit]. unfold bind, log_visit, class_name. cbn [heap].
  by rewrite Ha.
Qed.

(** C4. [visit] resolves the handler by the kind of the node.  When the
    visitor has a method [visit_<Kind>], the call of [visit] is the call of
    that method on the node: its outcome is the outcome of [visit], and the
    children are visited only if the method does it (a handler that returns
    at once leaves the log with the node alone).  Only when there is no such
    method does [generic_visit] run. *)
Theorem C4_dispatch_by_kind (V : visitor) (fuel : nat) (a : addr) (o : obj) (st : state) :
  heap st !! a = Some o →
  (∀ handler : method,
     methods V !! ("visit_" +:+ cls_name (obj_class o)) = Some handler →
     visit V (S fuel) (VRef a) st =
     handler (visit V fuel) (VRef a) (State (heap st) (trace st ++ [VRef a]))) ∧
  (∀ r : value,
     methods V !! ("visit_" +:+ cls_name (obj_class o)) =
       Some ((fun _ _ => ret r) : method) →
     visit V (S fuel) (VRef a) st = Ok r (State (heap st) (trace st ++ [VRef a]))) ∧
  (methods V !! ("visit_" +:+ cls_name (obj_class o)) = None →
     visit V (S fuel) (VRef a) st =
     generic_visit V (visit V fuel) (VRef a) (State (heap st) (trace st ++ [VRef a]))).
Proof.
  intros Ha. rewrite (visit_dispatch V fuel a o st Ha).
  split_and!.
  - by intros handler ->.
  - by intros r ->.
  - by intros ->.
Qed.

Lemma C4_dispatch_by_kind_witness :
  visit (NodeVisitor Examples.seven_for_Call) 1 (VRef 5) Examples.st0 =
    Ok (VScalar (SInt 7)) (State Examples.heap0 [VRef 5]) ∧
  visit (NodeTransformer Examples.seven_for_Call) 1 (VRef 5) Examples.st0 =
    Ok (VScalar (SInt 7)) (State Examples.heap0 [VRef 5]).
Proof.
  split.
  - apply (C4_dispatch_by_kind (NodeVisitor Examples.seven_for_Call)
             0 5 Examples.obj_call Examples.st0); reflexivity.
  - apply (C4_dispatch_by_kind (NodeTransformer Examples.seven_for_Call)
             0 5 Examples.obj_call Examples.st0); reflexivity.
Defined.

(** C10. Dispatch looks at the name of the class of the node and at nothing
    else.  A handler [visit_<Kind>] is not what runs on a node whose class
    has another name, be that class a subclass of [Kind] or not: on such a
    node the method named after the node's own class runs, if the visitor has
    one, and [generic_visit] otherwise. *)
Theorem C10_dispatch_by_exact_name (g : method) (hs : gmap string method)
    (kind : string) (handler : method) (fuel : nat) (a : addr) (o : obj) (st : state) :
  heap st !! a = Some o →
  cls_name (obj_class o) ≠ kind →
  visit (Visitor g (<["visit_" +:+ kind := handler]> hs)) (S fuel) (VRef a) st =
  default g (hs !! ("visit_" +:+ cls_name (obj_class o)))
    (visit (Visitor g (<["visit_" +:+ kind := handler]> hs)) fuel) (VRef a)
    (State (heap st) (trace st ++ [VRef a])).
Proof.
  intros Ha Hne. rewrite (visit_dispatch _ fuel a o st Ha). cbn [methods generic_visit].
  rewrite lookup_insert_ne; [done|].
  intros Heq. apply Hne. symmetry. by simplify_eq/=.
Qed.

Lemma C10_dispatch_by_exact_name_witness :
  visit (NodeTransformer (<["visit_Literal" := fun _ _ => ret (VScalar SNone)]> ∅)) 1
    (VRef 4) Examples.st0 =
  NodeTransformer_generic_visit
    (visit (NodeTransformer (<["visit_Literal" := fun _ _ => ret (VScalar SNone)]> ∅)) 0)
    (VRef 4) (State Examples.heap0 [VRef 4]).
Proof.
  etrans.
  - apply (C10_dispatch_by_exact_name NodeTransformer_generic_visit ∅ "Literal"
             (fun _ _ => ret (VScalar SNone)) 0 4
             Examples.obj_two Examples.st0).
    + reflexivity.
    + vm_compute. discriminate.
  - reflexivity.
Defined.

(** ** Reconstruction *)

(** [generic_visit] returns when no call of [self.visit] on a child raises. *)
Lemma NodeTransformer_generic_visit_returns self a o st :
  (∀ v, preserves extended_store (self v)) →
  heap st !! a = Some o →
  dataclass_instance o →
  (∀ v st1, is_child o v → heap st `prefix_of` heap st1 →
            ∃ r st2, self v st1 = Ok r st2) →
  ∃ node' st', NodeTransformer_generic_visit self (VRef a) st = Ok node' st'.
Proof.
  intros Hext Ha Ho Htotal.
  pose proof (NodeTransformer_generic_visit_spec self Hext (heap st) a o st Ha
                ltac:(done) Ho) as H.
  destruct (NodeTransformer_generic_visit self (VRef a) st) as [node' st'|e st'];
    [eauto|].
  destruct H as (v & Hv & st1 & Hpre & Hraise).
  destruct (Htotal v st1 Hv Hpre) as (r & st2 & Hok). congruence.
Qed.

(** C3. [NodeTransformer.generic_visit] on a node returns a node of the same
    class, built from keywords that are exactly the names of the declared
    fields: [fields] enumerates the same names in the same order on the
    result as on the input, none dropped, none added; the only other outcome
    is an exception of [self.visit], and without one it returns. *)
Theorem C3_same_kind_same_fields (self : value → M value) (a : addr) (o : obj)
    (st : state) :
  (∀ v, preserves extended_store (self v)) →
  heap st !! a = Some o →
  dataclass_instance o →
  match NodeTransformer_generic_visit self (VRef a) st with
  | Ok node' st' =>
      ∃ a' o', node' = VRef a' ∧ heap st' !! a' = Some o' ∧
        obj_class o' = obj_class o ∧
        dom (obj_attrs o') = list_to_set (cls_fields (obj_class o)) ∧
        fields (VRef a) st = Ok (cls_fields (obj_class o)) st ∧
        fields node' st' = Ok (cls_fields (obj_class o)) st'
  | Err e st' => raised_by (heap st) self o e st'
  end ∧
  ((∀ v st1, is_child o v → heap st `prefix_of` heap st1 →
             ∃ r st2, self v st1 = Ok r st2) →
   ∃ node' st', NodeTransformer_generic_visit self (VRef a) st = Ok node' st').
Proof.
  intros Hext Ha Ho. split; [|by eapply NodeTransformer_generic_visit_returns].
  pose proof (NodeTransformer_generic_visit_spec self Hext (heap st) a o st Ha
                ltac:(done) Ho) as H.
  destruct (NodeTransformer_generic_visit self (VRef a) st) as [node' st'|e st'];
    [|done].
  destruct H as (kw & st1 & -> & -> & Hpre & Hdom & Hfields).
  exists (length (heap st1)), (Obj (obj_class o) kw). cbn [heap].
  assert (Hnew : (heap st1 ++ [Obj (obj_class o) kw]) !! length (heap st1) =
                 Some (Obj (obj_class o) kw)) by (by apply list_lookup_middle).
  split_and!; try done.
  - unfold fields, bind, type_of. by rewrite Ha.
  - unfold fields, bind, type_of. cbn [heap]. by rewrite Hnew.
Qed.

Lemma C3_same_kind_same_fields_witness :
  match NodeTransformer_generic_visit (visit (NodeTransformer ∅) 1) (VRef 3) Examples.st0 with
  | Ok node' st' =>
      ∃ a' o', node' = VRef a' ∧ heap st' !! a' = Some o' ∧
        obj_class o' = obj_class Examples.obj_eq ∧
        dom (obj_attrs o') = list_to_set (cls_fields (obj_class Examples.obj_eq)) ∧
        fields (VRef 3) Examples.st0 =
          Ok (cls_fields (obj_class Examples.obj_eq)) Examples.st0 ∧
        fields node' st' = Ok (cls_fields (obj_class Examples.obj_eq)) st'
  | Err e st' =>
      raised_by (heap Examples.st0) (visit (NodeTransformer ∅) 1) Examples.obj_eq e st'
  end.
Proof.
  apply (C3_same_kind_same_fields (visit (NodeTransformer ∅) 1) 3 Examples.obj_eq
           Examples.st0).
  - apply NodeTransformer_visit_extends. apply map_Forall_empty.
  - reflexivity.
  - apply (bool_decide_unpack _). vm_compute. exact I.
Defined.

(** C9. A field that holds a list: in the node that
    [NodeTransformer.generic_visit] returns, the field holds a list of the
    same length; at the position of an item that is not a node is that item,
    at the position of an item that is a node is what [self.visit] returned
    for it. *)
Theorem C9_list_field_positions (self : value → M value) (a : addr) (o : obj)
    (st : state) (f : string) (items : list value) :
  (∀ v, preserves extended_store (self v)) →
  heap st !! a = Some o →
  dataclass_instance o →
  f ∈ cls_fields (obj_class o) →
  obj_attrs o !! f = Some (VList items) →
  match NodeTransformer_generic_visit self (VRef a) st with
  | Ok node' st' =>
      ∃ a' o' new_val, node' = VRef a' ∧ heap st' !! a' = Some o' ∧
        obj_attrs o' !! f = Some (VList new_val) ∧
        length new_val = length items ∧
        ∀ i item, items !! i = Some item →
          ∃ r, new_val !! i = Some r ∧
               if is_node item
               then ∃ st1 st2, heap st `prefix_of` heap st1 ∧ self item st1 = Ok r st2
               else r = item
  | Err e st' => raised_by (heap st) self o e st'
  end ∧
  ((∀ v st1, is_child o v → heap st `prefix_of` heap st1 →
             ∃ r st2, self v st1 = Ok r st2) →
   ∃ node' st', NodeTransformer_generic_visit self (VRef a) st = Ok node' st').
Proof.
  intros Hext Ha Ho Hf Hitems. split; [|by eapply NodeTransformer_generic_visit_returns].
  pose proof (NodeTransformer_generic_visit_spec self Hext (heap st) a o st Ha
                ltac:(done) Ho) as H.
  destruct (NodeTransformer_generic_visit self (VRef a) st) as [node' st'|e st'];
    [|done].
  destruct H as (kw & st1 & -> & -> & Hpre & Hdom & Hfields).
  destruct (Hfields f _ Hf Hitems) as (r & Hr & rs & -> & Hrs).
  exists (length (heap st1)), (Obj (obj_class o) kw), rs. cbn [heap obj_attrs].
  split_and!; try done.
  - by apply list_lookup_middle.
  - symmetry. by eapply Forall2_length.
  - intros i item Hi.
    destruct (Forall2_lookup_l _ _ _ _ _ Hrs Hi) as (r & Hri & Hres). eauto.
Qed.

Lemma C9_list_field_positions_witness :
  match NodeTransformer_generic_visit (visit (NodeTransformer ∅) 2) (VRef 5) Examples.st0 with
  | Ok node' st' =>
      ∃ a' o' new_val, node' = VRef a' ∧ heap st' !! a' = Some o' ∧
        obj_attrs o' !! "args" = Some (VList new_val) ∧
        length new_val = length [VRef 3; VScalar (SStr "raw"); VRef 4] ∧
        ∀ i item, [VRef 3; VScalar (SStr "raw"); VRef 4] !! i = Some item →
          ∃ r, new_val !! i = Some r ∧
               if is_node item
               then ∃ st1 st2, heap Examples.st0 `prefix_of` heap st1 ∧
                               visit (NodeTransformer ∅) 2 item st1 = Ok r st2
               else r = item
  | Err e st' =>
      raised_by (heap Examples.st0) (visit (NodeTransformer ∅) 2) Examples.obj_call e st'
  end.
Proof.
  apply (C9_list_field_positions (visit (NodeTransformer ∅) 2) 5 Examples.obj_call
           Examples.st0 "args" [VRef 3; VScalar (SStr "raw"); VRef 4]).
  - apply NodeTransformer_visit_extends. apply map_Forall_empty.
  - reflexivity.
  - apply (bool_decide_unpack _). vm_compute. exact I.
  - apply (bool_decide_unpack _). vm_compute. exact I.
  - reflexivity.
Defined.

(** ** A substitute of the wrong kind *)

(** C5, as stated, fails: a handler returns a string for the [Literal] that
    the field [right] of a [Compare] holds; the transformation of the
    [Compare] does not raise, it returns a [Compare] whose field [right] is
    the string. *)
Lemma C5_counterexample :
  obj_attrs Examples.obj_eq !! "right" = Some (VRef 2) ∧
  visit (NodeTransformer Examples.string_for_Literal) 1 (VRef 2) Examples.st0 =
    Ok (VScalar (SStr "oops")) (State Examples.heap0 [VRef 2]) ∧
  ¬ fails_loudly (NodeTransformer Examples.string_for_Literal) 2 (VRef 3) Examples.st0 ∧
  ∃ st' o',
    visit (NodeTransformer Examples.string_for_Literal) 2 (VRef 3) Examples.st0 =
      Ok (VRef 7) st' ∧
    heap st' !! 7 = Some o' ∧
    obj_class o' = Examples.Compare ∧
    obj_attrs o' !! "right" = Some (VScalar (SStr "oops")).
Proof.
  split_and!.
  - reflexivity.
  - reflexivity.
  - intros (e & st' & H). vm_compute in H. discriminate.
  - eexists _, _. split_and!.
    + vm_compute. reflexivity.
    + vm_compute. reflexivity.
    + reflexivity.
    + vm_compute. reflexivity.
Qed.

(** C5, amended.  [NodeTransformer.generic_visit] does not compare what
    [self.visit] returns with the declared kind of the field: for a field
    that holds a node, the returned node has the same class as the input and
    holds in that field the value that [self.visit] returned for the child,
    whatever it is.  The only exceptions are those that a call of
    [self.visit] raises, which pass through unchanged; without one,
    [generic_visit] returns. *)
Theorem C5_substitute_stored_unchecked (self : value → M value) (a : addr) (o : obj)
    (st : state) (f : string) (child : addr) :
  (∀ v, preserves extended_store (self v)) →
  heap st !! a = Some o →
  dataclass_instance o →
  f ∈ cls_fields (obj_class o) →
  obj_attrs o !! f = Some (VRef child) →
  match NodeTransformer_generic_visit self (VRef a) st with
  | Ok node' st' =>
      ∃ a' o' r, node' = VRef a' ∧ heap st' !! a' = Some o' ∧
        obj_class o' = obj_class o ∧
        obj_attrs o' !! f = Some r ∧
        ∃ st1 st2, heap st `prefix_of` heap st1 ∧ self (VRef child) st1 = Ok r st2
  | Err e st' => raised_by (heap st) self o e st'
  end ∧
  ((∀ v st1, is_child o v → heap st `prefix_of` heap st1 →
             ∃ r st2, self v st1 = Ok r st2) →
   ∃ node' st', NodeTransformer_generic_visit self (VRef a) st = Ok node' st').
Proof.
  intros Hext Ha Ho Hf Hchild. split; [|by eapply NodeTransformer_generic_visit_returns].
  pose proof (NodeTransformer_generic_visit_spec self Hext (heap st) a o st Ha
                ltac:(done) Ho) as H.
  destruct (NodeTransformer_generic_visit self (VRef a) st) as [node' st'|e st'];
    [|done].
  destruct H as (kw & st1 & -> & -> & Hpre & Hdom & Hfields).
  destruct (Hfields f _ Hf Hchild) as (r & Hr & Hres).
  exists (length (heap st1)), (Obj (obj_class o) kw), r. cbn [heap obj_attrs obj_class].
  split_and!; try done.
  by apply list_lookup_middle.
Qed.

Lemma C5_substitute_stored_unchecked_witness :
  match
    NodeTransformer_generic_visit
      (visit (NodeTransformer Examples.string_for_Literal) 1) (VRef 3) Examples.st0
  with
  | Ok node' st' =>
      ∃ a' o' r, node' = VRef a' ∧ heap st' !! a' = Some o' ∧
        obj_class o' = obj_class Examples.obj_eq ∧
        obj_attrs o' !! "right" = Some r ∧
        ∃ st1 st2, heap Examples.st0 `prefix_of` heap st1 ∧
                   visit (NodeTransformer Examples.string_for_Literal) 1 (VRef 2) st1 =
                     Ok r st2
  | Err e st' =>
      raised_by (heap Examples.st0) (visit (NodeTransformer Examples.string_for_Literal) 1)
        Examples.obj_eq e st'
  end.
Proof.
  apply (C5_substitute_stored_unchecked
           (visit (NodeTransformer Examples.string_for_Literal) 1)
           3 Examples.obj_eq Examples.st0 "right" 2).
  - apply NodeTransformer_visit_extends. apply map_Forall_singleton.
    intros self Hself v st. apply extended_store_refl.
  - reflexivity.
  - apply (bool_decide_unpack _). vm_compute. exact I.
  - apply (bool_decide_unpack _). vm_compute. exact I.
  - reflexivity.
Defined.

(** ** Sharing *)

(** C7, as stated, fails: without handlers, the [Compare] that the
    transformation returns holds in [left] a new [Identifier], not the one
    of the input. *)
Lemma C7_counterexample : ¬ shares_untouched_children ∅ 2 3 Examples.st0.
Proof.
  intros H.
  specialize (H Examples.obj_eq 8
                (final_state (visit (NodeTransformer ∅) 2 (VRef 3) Examples.st0))
                (Obj Examples.Compare
                   (<["comparator" := VScalar (SStr "eq")]>
                    (<["left" := VRef 6]> {[ "right" := VRef 7 ]})))
                "left" 1 Examples.obj_x).
  assert (Hfalse : Some (VRef 6) = Some (VRef 1)).
  { apply H; vm_compute; reflexivity. }
  discriminate.
Qed.

(** What [visit] returns for a node whose kind has no handler is an
    instance that the store did not have. *)
Lemma NodeTransformer_visit_fresh (hs : gmap string method) (fuel : nat) (a : addr)
    (o : obj) (st : state) (r : value) (st' : state) :
  map_Forall (fun _ h => method_preserves extended_store h) hs →
  heap st !! a = Some o →
  dataclass_instance o →
  hs !! ("visit_" +:+ cls_name (obj_class o)) = None →
  visit (NodeTransformer hs) fuel (VRef a) st = Ok r st' →
  ∃ a', r = VRef a' ∧ length (heap st) ≤ a'.
Proof.
  intros Hhs Ha Ho Hnone Hrun. destruct fuel as [|fuel]; [discriminate|].
  rewrite (visit_dispatch _ fuel a o st Ha) in Hrun.
  cbn [methods generic_visit NodeTransformer] in Hrun. rewrite Hnone in Hrun.
  cbn [default] in Hrun.
  pose proof (NodeTransformer_generic_visit_spec (visit (NodeTransformer hs) fuel)
                (NodeTransformer_visit_extends hs fuel Hhs) (heap st) a o
                (State (heap st) (trace st ++ [VRef a])) Ha ltac:(done) Ho) as H.
  rewrite Hrun in H. destruct H as (kw & st1 & -> & _ & Hpre & _).
  exists (length (heap st1)). split; [done|]. by apply prefix_length in Hpre.
Qed.

Lemma bind_ext {A B} (m1 m2 : M A) (k1 k2 : A → M B) st :
  m1 st = m2 st → (∀ x st', k1 x st' = k2 x st') → bind m1 k1 st = bind m2 k2 st.
Proof. unfold bind. intros -> Hk. destruct (m2 st); auto. Qed.

(** Two loops agree when their bodies agree in the states that satisfy an
    invariant of the second. *)
Lemma for_fold_agree {A B} (I : state → Prop) (body1 body2 : B → A → M B) l :
  (∀ acc x st, x ∈ l → I st →
     body1 acc x st = body2 acc x st ∧
     ∀ acc' st', body2 acc x st = Ok acc' st' → I st') →
  ∀ acc st, I st → for_fold body1 l acc st = for_fold body2 l acc st.
Proof.
  induction l as [|x l IH]; intros Hb acc st HI; cbn [for_fold]; [done|].
  destruct (Hb acc x st ltac:(by apply elem_of_cons; left) HI) as [Heq Hpost].
  unfold bind. rewrite Heq.
  destruct (body2 acc x st) as [acc' st'|e st'] eqn:Hrun; [|done].
  apply IH; [|by eapply Hpost].
  intros acc1 y st1 Hy. apply Hb. by apply elem_of_cons; right.
Qed.

Lemma for_each_agree {A} (I : state → Prop) (body1 body2 : A → M unit) l :
  (∀ x st, x ∈ l → I st →
     body1 x st = body2 x st ∧ ∀ u st', body2 x st = Ok u st' → I st') →
  ∀ st, I st → for_each body1 l st = for_each body2 l st.
Proof.
  induction l as [|x l IH]; intros Hb st HI; cbn [for_each]; [done|].
  destruct (Hb x st ltac:(by apply elem_of_cons; left) HI) as [Heq Hpost].
  unfold bind. rewrite Heq.
  destruct (body2 x st) as [u st'|e st'] eqn:Hrun; [|done].
  apply IH; [|by eapply Hpost].
  intros y st1 Hy. apply Hb. by apply elem_of_cons; right.
Qed.

Lemma NodeVisitor_visit_extends (hs : gmap string method) (fuel : nat) :
  map_Forall (fun _ h => method_preserves extended_store h) hs →
  ∀ v, preserves extended_store (visit (NodeVisitor hs) fuel v).
Proof.
  intros Hhs.
  apply (preserves_visit extended_store extended_store_refl extended_store_trans);
    [by intros st tr; unfold extended_store| |done].
  apply (preserves_NodeVisitor_generic_visit extended_store extended_store_refl
           extended_store_trans).
Qed.

Lemma elem_of_flat_map_intro {A B} (f : A → list B) l x y :
  x ∈ l → y ∈ f x → y ∈ flat_map f l.
Proof.
  induction l as [|z l IH]; intros Hx Hy; [by apply elem_of_nil in Hx|].
  cbn [flat_map]. apply elem_of_app. apply elem_of_cons in Hx as [->|Hx]; auto.
Qed.

Lemma unhandled_node hs a c kids :
  unhandled hs (TNode a c kids) →
  hs !! ("visit_" +:+ cls_name c) = None ∧ Forall (unhandled hs) kids.
Proof.
  unfold unhandled. cbn [kinds]. intros H. apply Forall_cons in H as [Hc Hkids].
  split; [done|]. apply Forall_forall. intros k Hk.
  rewrite Forall_forall in Hkids. apply Forall_forall. intros x Hx.
  apply Hkids. by apply (elem_of_flat_map_intro kinds kids k).
Qed.

Lemma unhandled_item hs items i :
  unhandled hs (TList items) → i ∈ items → is_tnode i = true → unhandled hs i.
Proof.
  unfold unhandled. cbn [kinds]. intros H Hi Hnode.
  rewrite Forall_forall in H. apply Forall_forall. intros x Hx.
  apply H. eapply elem_of_flat_map_intro; [exact Hi|].
  by destruct i.
Qed.

Lemma bind_ext_ok {A B} (m1 m2 : M A) (k1 k2 : A → M B) st :
  m1 st = m2 st →
  (∀ x st', m2 st = Ok x st' → k1 x st' = k2 x st') →
  bind m1 k1 st = bind m2 k2 st.
Proof. unfold bind. intros -> Hk. destruct (m2 st); auto. Qed.

Lemma Forall2_elem_of_l {A B} (P : A → B → Prop) l k x :
  Forall2 P l k → x ∈ l → ∃ y, y ∈ k ∧ P x y.
Proof.
  induction 1 as [|x' y' l k Hxy _ IH]; intros Hx; [by apply elem_of_nil in Hx|].
  apply elem_of_cons in Hx as [->|Hx].
  - exists y'. split; [by apply elem_of_cons; left|done].
  - destruct (IH Hx) as (y & Hy & HP). exists y. split; [by apply elem_of_cons; right|done].
Qed.

Lemma Forall2_elem_of_r {A B} (P : A → B → Prop) l k y :
  Forall2 P l k → y ∈ k → ∃ x, x ∈ l ∧ P x y.
Proof.
  induction 1 as [|x' y' l k Hxy _ IH]; intros Hy; [by apply elem_of_nil in Hy|].
  apply elem_of_cons in Hy as [->|Hy].
  - exists x'. split; [by apply elem_of_cons; left|done].
  - destruct (IH Hy) as (x & Hx & HP). exists x. split; [by apply elem_of_cons; right|done].
Qed.

(** The read of an attribute of an instance that the store has kept. *)
Lemma getattr_Ok h a o f st val st' :
  h !! a = Some o → h `prefix_of` heap st →
  getattr (VRef a) f st = Ok val st' → obj_attrs o !! f = Some val ∧ st' = st.
Proof.
  intros Ha Hpre. unfold getattr. rewrite (prefix_lookup_Some _ _ _ _ Ha Hpre).
  destruct (obj_attrs o !! f); [|discriminate]. by intros [= -> ->].
Qed.

Lemma NodeTransformer_unhandled (hs : gmap string method) (t : tree) :
  ∀ v fuel st, repr (heap st) t v → unhandled hs t →
    transform_field (visit (NodeTransformer hs) fuel) v st =
    transform_field (visit (NodeTransformer ∅) fuel) v st.
Proof.
  induction t as [s|a c kids IH|items IH] using tree_nested_ind;
    intros v fuel st Hr Hun; inversion Hr; subst.
  - done.
  - rename H2 into Ha, H4 into Hnd, H5 into Hkids.
    apply unhandled_node in Hun as [Hnone Hunkids].
    cbn [transform_field]. destruct fuel as [|fuel]; [done|].
    rewrite !(visit_dispatch _ fuel a o st Ha).
    cbn [methods generic_visit NodeTransformer]. rewrite Hnone, lookup_empty.
    cbn [default]. unfold NodeTransformer_generic_visit.
    apply bind_ext; [|done]. rewrite !for_fields_unfold.
    apply bind_ext_ok; [done|]. intros names st1 Hnames.
    unfold fields, bind, type_of, ret in Hnames. cbn [heap] in Hnames.
    rewrite Ha in Hnames. injection Hnames as <- <-.
    apply (for_fold_agree (fun st1 => heap st `prefix_of` heap st1)); [|done].
    intros kw f st1 Hf Hst1.
    destruct (Forall2_elem_of_l _ _ _ _ Hkids Hf) as (k & Hk & w & Hw & Hrk).
    rewrite Forall_forall in IH, Hunkids. split.
    + apply bind_ext_ok; [done|]. intros val st2 Hget.
      destruct (getattr_Ok _ _ _ _ _ _ _ Ha Hst1 Hget) as [Hval ->].
      assert (val = w) as -> by congruence.
      apply bind_ext; [|done].
      apply (IH k Hk); [by eapply repr_prefix|by apply Hunkids].
    + intros kw' st2 Hrun.
      assert (Hext : preserves extended_store
                (val <- getattr (VRef a) f ;;
                 new_val <- transform_field (visit (NodeTransformer ∅) fuel) val ;;
                 ret (<[f := new_val]> kw))).
      { apply (preserves_bind extended_store extended_store_trans);
          [apply (preserves_getattr extended_store extended_store_refl)|intros val].
        apply (preserves_bind extended_store extended_store_trans).
        - apply transform_field_extends, NodeTransformer_visit_extends, map_Forall_empty.
        - intros. apply (preserves_ret extended_store extended_store_refl). }
      specialize (Hext st1). rewrite Hrun in Hext. cbn in Hext.
      unfold extended_store in Hext. by etrans.
  - match goal with H : Forall2 (repr _) items _ |- _ => rename H into Hitems end.
    cbn [transform_field]. apply bind_ext; [|done].
    apply (for_fold_agree (fun st1 => heap st `prefix_of` heap st1)); [|done].
    intros acc item st1 Hitem Hst1.
    destruct (Forall2_elem_of_r _ _ _ _ Hitems Hitem) as (i & Hi & Hri).
    rewrite Forall_forall in IH. split.
    + unfold transform_item. destruct (is_node item) eqn:Hnode; [|done].
      apply bind_ext; [|done].
      destruct item as [|child|]; try discriminate.
      assert (Hti : is_tnode i = true) by (by inversion Hri).
      apply (IH i Hi (VRef child) fuel st1);
        [by eapply repr_prefix|by eapply unhandled_item].
    + intros acc' st2 Hrun.
      assert (Hext : preserves extended_store
                (transform_item (visit (NodeTransformer ∅) fuel) acc item)).
      { unfold transform_item. destruct (is_node item).
        - apply (preserves_bind extended_store extended_store_trans).
          + apply NodeTransformer_visit_extends, map_Forall_empty.
          + intros. apply (preserves_ret extended_store extended_store_refl).
        - apply (preserves_ret extended_store extended_store_refl). }
      specialize (Hext st1). rewrite Hrun in Hext. cbn in Hext.
      unfold extended_store in Hext. by etrans.
Qed.

(** A property of the results of [self.visit] that extensions of the store
    keep holds, in the state in which [generic_visit] returns, of what each
    child of the node has become. *)
Section generic_visit_post.
Variable self : value → M value.
Hypothesis self_extends : ∀ v, preserves extended_store (self v).
Variable h0 : list obj.
Variable Q : value → value → state → Prop.
Hypothesis Q_self : ∀ v st r st',
  is_node v = true → h0 `prefix_of` heap st → self v st = Ok r st' → Q v r st'.
Hypothesis Q_mono : ∀ v r st st',
  Q v r st → heap st `prefix_of` heap st' → Q v r st'.

Lemma item_post_mono st st' item r :
  item_post Q st item r → heap st `prefix_of` heap st' → item_post Q st' item r.
Proof. unfold item_post. destruct (is_node item); eauto. Qed.

Lemma field_post_mono st st' val r :
  field_post Q st val r → heap st `prefix_of` heap st' → field_post Q st' val r.
Proof.
  intros H Hpre. destruct val as [s|a|items]; cbn [field_post] in *; [done|eauto|].
  destruct H as (rs & -> & Hrs). exists rs. split; [done|].
  eapply Forall2_impl; [exact Hrs|]. intros item r Hi. by eapply item_post_mono.
Qed.

Lemma transform_item_extends acc item :
  preserves extended_store (transform_item self acc item).
Proof.
  unfold transform_item. destruct (is_node item).
  - apply (preserves_bind extended_store extended_store_trans); [apply self_extends|].
    intros. apply (preserves_ret extended_store extended_store_refl).
  - apply (preserves_ret extended_store extended_store_refl).
Qed.

Lemma transform_items_post items : ∀ acc st new st',
  h0 `prefix_of` heap st →
  for_fold (transform_item self) items acc st = Ok new st' →
  heap st `prefix_of` heap st' ∧
  ∃ rs, new = acc ++ rs ∧ Forall2 (item_post Q st') items rs.
Proof.
  induction items as [|item items IH]; intros acc st new st' Hst Hrun;
    cbn [for_fold] in Hrun.
  - unfold ret in Hrun. injection Hrun as <- <-. split; [done|].
    exists []. by rewrite app_nil_r.
  - unfold bind at 1 in Hrun.
    pose proof (transform_item_extends acc item st) as Hext.
    destruct (transform_item self acc item st) as [acc1 st1|e st1] eqn:Hitem;
      [|discriminate].
    cbn [final_state] in Hext. unfold extended_store in Hext.
    destruct (IH acc1 st1 new st' ltac:(by etrans) Hrun) as (Hpre & rs & -> & Hrs).
    split; [by etrans|].
    unfold transform_item in Hitem. destruct (is_node item) eqn:Hnode.
    + unfold bind, ret in Hitem.
      destruct (self item st) as [r st2|e st2] eqn:Hself; [|discriminate].
      injection Hitem as <- <-.
      exists (r :: rs). split; [by rewrite <- app_assoc|].
      constructor; [|done]. unfold item_post. rewrite Hnode.
      eapply Q_mono; [by eapply Q_self|done].
    + unfold ret in Hitem. injection Hitem as <- <-.
      exists (item :: rs). split; [by rewrite <- app_assoc|].
      constructor; [|done]. unfold item_post. by rewrite Hnode.
Qed.

Lemma transform_field_post val st r st' :
  h0 `prefix_of` heap st →
  transform_field self val st = Ok r st' →
  field_post Q st' val r.
Proof.
  intros Hst Hrun. destruct val as [s|a|items]; cbn [transform_field field_post] in *.
  - unfold ret in Hrun. by injection Hrun as <- <-.
  - by eapply Q_self.
  - unfold bind in Hrun.
    destruct (for_fold _ items [] st) as [new st1|e st1] eqn:Hloop; [|discriminate].
    unfold ret in Hrun. injection Hrun as <- <-.
    destruct (transform_items_post items [] st new st1 Hst Hloop) as (_ & rs & -> & Hrs).
    eauto.
Qed.

Lemma transform_fields_post a o names :
  NoDup names →
  ∀ st (kw kw' : gmap string value) st',
    heap st !! a = Some o → h0 `prefix_of` heap st →
    for_fold (fun kw field =>
                val <- getattr (VRef a) field ;;
                new_val <- transform_field self val ;;
                ret (<[field := new_val]> kw))
      names kw st = Ok kw' st' →
    heap st `prefix_of` heap st' ∧
    (∀ f, f ∉ names → kw' !! f = kw !! f) ∧
    ∀ f val, f ∈ names → obj_attrs o !! f = Some val →
      ∃ r, kw' !! f = Some r ∧ field_post Q st' val r.
Proof.
  intros Hnd.
  induction names as [|g names IH]; intros st kw kw' st' Ha Hst Hrun;
    cbn [for_fold] in Hrun.
  - unfold ret in Hrun. injection Hrun as <- <-. split_and!; [done|done|].
    intros f val Hf. by apply elem_of_nil in Hf.
  - apply NoDup_cons in Hnd as [Hg Hnd].
    unfold bind at 1 in Hrun. unfold bind at 1 in Hrun. unfold getattr in Hrun.
    rewrite Ha in Hrun.
    destruct (obj_attrs o !! g) as [val|] eqn:Hval; [|discriminate].
    unfold bind at 1 in Hrun.
    pose proof (transform_field_extends self self_extends val st) as Hext.
    destruct (transform_field self val st) as [r st1|e st1] eqn:Hfield; [|discriminate].
    unfold ret at 1 in Hrun. cbn [final_state] in Hext. unfold extended_store in Hext.
    destruct (IH Hnd st1 (<[g := r]> kw) kw' st' (prefix_lookup_Some _ _ _ _ Ha Hext)
                ltac:(by etrans) Hrun) as (Hpre & Hout & Hin).
    split_and!.
    + by etrans.
    + intros f Hf. apply not_elem_of_cons in Hf as [Hfg Hf].
      by rewrite Hout, lookup_insert_ne.
    + intros f val' Hf Hval'. apply elem_of_cons in Hf as [->|Hf]; [|eauto].
      assert (val' = val) as -> by congruence.
      exists r. split; [by rewrite Hout, lookup_insert_eq|].
      eapply field_post_mono; [by eapply transform_field_post|done].
Qed.

Lemma NodeTransformer_generic_visit_post a o st v' st' :
  heap st !! a = Some o →
  h0 `prefix_of` heap st →
  dataclass_instance o →
  NodeTransformer_generic_visit self (VRef a) st = Ok v' st' →
  ∃ kw st1,
    v' = VRef (length (heap st1)) ∧
    st' = State (heap st1 ++ [Obj (obj_class o) kw]) (trace st1) ∧
    heap st `prefix_of` heap st1 ∧
    ∀ f val, f ∈ cls_fields (obj_class o) → obj_attrs o !! f = Some val →
      ∃ r, kw !! f = Some r ∧ field_post Q st' val r.
Proof.
  intros Ha Hst [Hnd Hattrs] Hrun.
  pose proof (transform_fields_spec self self_extends h0 a o _ Hnd Hattrs st ∅ Ha Hst)
    as Hspec.
  unfold NodeTransformer_generic_visit in Hrun. unfold bind at 1 in Hrun.
  rewrite for_fields_unfold in Hrun. unfold fields in Hrun.
  unfold bind at 1 in Hrun. unfold bind at 1 in Hrun. unfold bind at 1 in Hrun.
  unfold type_of at 1 in Hrun. rewrite Ha in Hrun. unfold ret at 1 in Hrun.
  destruct (for_fold _ _ _ st) as [kw st1|e st1] eqn:Hloop; [|discriminate].
  destruct Hspec as (_ & Hdom & _ & _).
  destruct (transform_fields_post a o _ Hnd st ∅ kw st1 Ha Hst Hloop) as (Hpre & _ & Hin).
  unfold bind, type_of in Hrun. rewrite (prefix_lookup_Some _ _ _ _ Ha Hpre) in Hrun.
  unfold construct in Hrun.
  rewrite bool_decide_eq_true_2 in Hrun by (rewrite Hdom; set_solver).
  injection Hrun as <- <-.
  exists kw, st1. split_and!; try done.
  intros f val Hf Hval. destruct (Hin f val Hf Hval) as (r & Hr & Hpost).
  exists r. split; [done|]. eapply field_post_mono; [exact Hpost|].
  cbn [heap]. by apply prefix_app_r.
Qed.

End generic_visit_post.

(** What [visit] returns for a node that no handler alters, no node of its
    unfolding having a kind with a handler, is a copy of it made of instances
    that the store did not have. *)
Lemma NodeTransformer_visit_copies (hs : gmap string method) (fuel : nat) (t : tree)
    (a : addr) (st : state) (r : value) (st' : state) :
  repr (heap st) t (VRef a) →
  unhandled hs t →
  visit (NodeTransformer hs) fuel (VRef a) st = Ok r st' →
  rebuilt t st r st'.
Proof.
  intros Hr Hun Hrun.
  pose proof (NodeTransformer_unhandled hs t (VRef a) fuel st Hr Hun) as Heq.
  cbn [transform_field] in Heq. rewrite Heq in Hrun.
  pose proof (NodeTransformer_plain t (VRef a) fuel st Hr) as H.
  cbn [transform_field] in H. unfold rebuild_outcome in H.
  rewrite Hrun in H. destruct (decide _).
  - by destruct H as (x & st1 & [= <- <-] & _ & _ & Hpost).
  - by destruct H as (st1 & [=] & _).
Qed.

Lemma NodeTransformer_visit_rebuilt_child (hs : gmap string method) (fuel : nat)
    (h0 : list obj) (child : addr) (st : state) (r : value) (st' : state) :
  map_Forall (fun _ h => method_preserves extended_store h) hs →
  h0 `prefix_of` heap st →
  visit (NodeTransformer hs) fuel (VRef child) st = Ok r st' →
  rebuilt_child hs h0 (heap st') child r.
Proof.
  intros Hhs Hpre Hrun o_child Hc Hoc Hnc.
  pose proof (prefix_length _ _ Hpre) as Hlen. split.
  - destruct (NodeTransformer_visit_fresh hs fuel child o_child st r st' Hhs
                (prefix_lookup_Some _ _ _ _ Hc Hpre) Hoc Hnc Hrun) as (c' & -> & Hc').
    apply lookup_lt_Some in Hc.
    exists c'. split_and!; [done|lia|]. apply lookup_ge_None. lia.
  - intros t Ht Hun.
    destruct (NodeTransformer_visit_copies hs fuel t child st r st'
                (repr_prefix _ _ _ _ Hpre Ht) Hun Hrun)
      as (t' & Hr' & Hshape & Hfresh & _).
    exists t'. split_and!; [done..|].
    eapply Forall_impl; [exact Hfresh|]. intros a' Ha'. cbn in Ha'.
    apply lookup_ge_None. lia.
Qed.

Lemma rebuilt_child_mono (hs : gmap string method) (h h1 h2 : list obj) (child : addr)
    (r : value) :
  rebuilt_child hs h h1 child r → h1 `prefix_of` h2 → rebuilt_child hs h h2 child r.
Proof.
  intros H Hpre o_child Hc Hoc Hnc. destruct (H o_child Hc Hoc Hnc) as [Hfresh Hcopy].
  split; [done|]. intros t Ht Hun.
  destruct (Hcopy t Ht Hun) as (t' & Hr' & Hshape & Hnew).
  exists t'. split_and!; [|done..]. by eapply repr_prefix.
Qed.

(** C7, amended.  A node that the transformation engine reconstructs is a
    new instance, and a child of it whose kind has no handler is never the
    child of the input: the field of the new node holds a new instance in
    its place.  When no node below the child has a kind with a handler
    either, so that no handler alters the child, that instance is the root of
    a copy of the child, of the same shape and made of new instances only.  A
    scalar field value and a list item that is not a node are passed on as
    they are. *)
Theorem C7_untouched_children_are_rebuilt (hs : gmap string method) (fuel : nat)
    (a : addr) (o : obj) (st : state) :
  map_Forall (fun _ h => method_preserves extended_store h) hs →
  heap st !! a = Some o →
  dataclass_instance o →
  hs !! ("visit_" +:+ cls_name (obj_class o)) = None →
  match visit (NodeTransformer hs) (S fuel) (VRef a) st with
  | Ok node' st' =>
      ∃ a' o', node' = VRef a' ∧ heap st !! a' = None ∧ heap st' !! a' = Some o' ∧
        ∀ f val, f ∈ cls_fields (obj_class o) → obj_attrs o !! f = Some val →
          ∃ r, obj_attrs o' !! f = Some r ∧
            match val with
            | VScalar _ => r = val
            | VRef child => rebuilt_child hs (heap st) (heap st') child r
            | VList items =>
                ∃ rs, r = VList rs ∧
                  Forall2 (fun item ri =>
                             match item with
                             | VRef child =>
                                 rebuilt_child hs (heap st) (heap st') child ri
                             | _ => ri = item
                             end) items rs
            end
  | Err e st' => raised_by (heap st) (visit (NodeTransformer hs) fuel) o e st'
  end ∧
  ((∀ v st1, is_child o v → heap st `prefix_of` heap st1 →
             ∃ r st2, visit (NodeTransformer hs) fuel v st1 = Ok r st2) →
   ∃ node' st', visit (NodeTransformer hs) (S fuel) (VRef a) st = Ok node' st').
Proof.
  intros Hhs Ha Ho Hnone.
  rewrite (visit_dispatch _ fuel a o st Ha).
  cbn [methods generic_visit NodeTransformer]. rewrite Hnone. cbn [default].
  split.
  2:{ intros Htotal.
      apply (NodeTransformer_generic_visit_returns (visit (NodeTransformer hs) fuel) a o
               (State (heap st) (trace st ++ [VRef a])));
        [by apply NodeTransformer_visit_extends|done..]. }
  pose proof (NodeTransformer_generic_visit_spec (visit (NodeTransformer hs) fuel)
                (NodeTransformer_visit_extends hs fuel Hhs) (heap st) a o
                (State (heap st) (trace st ++ [VRef a])) Ha ltac:(done) Ho) as H.
  destruct (NodeTransformer_generic_visit _ _ _) as [node' st'|e st'] eqn:Hrun; [|done].
  clear H.
  destruct (NodeTransformer_generic_visit_post (visit (NodeTransformer hs) fuel)
              (NodeTransformer_visit_extends hs fuel Hhs) (heap st)
              (fun v r st2 =>
                 ∀ child, v = VRef child →
                          rebuilt_child hs (heap st) (heap st2) child r))
    with (a := a) (o := o) (st := State (heap st) (trace st ++ [VRef a]))
         (v' := node') (st' := st')
    as (kw & st1 & -> & -> & Hpre & Hfields); try done.
  { intros v st2 r st3 _ Hpre2 Hrun2 child ->.
    by eapply NodeTransformer_visit_rebuilt_child. }
  { intros v r st2 st3 HQ Hpre2 child ->. eapply rebuilt_child_mono; eauto. }
  cbn [heap] in Hpre.
  exists (length (heap st1)), (Obj (obj_class o) kw). cbn [heap obj_attrs].
  split_and!; try done.
  - apply lookup_ge_None. by apply prefix_length.
  - by apply list_lookup_middle.
  - intros f val Hf Hval. destruct (Hfields f val Hf Hval) as (r & Hr & Hres).
    exists r. split; [done|]. destruct val as [s|child|items]; cbn [field_post] in Hres.
    + done.
    + by apply Hres.
    + destruct Hres as (rs & -> & Hrs). exists rs. split; [done|].
      eapply Forall2_impl; [exact Hrs|]. intros item ri. unfold item_post.
      destruct item as [s|child|l]; cbn [is_node]; [done| |done].
      intros HQ. by apply HQ.
Qed.

Lemma C7_untouched_children_are_rebuilt_witness :
  match visit (NodeTransformer Examples.string_for_Literal) 3 (VRef 5) Examples.st0 with
  | Ok node' st' =>
      ∃ a' o', node' = VRef a' ∧ heap Examples.st0 !! a' = None ∧
        heap st' !! a' = Some o' ∧
        ∀ f val, f ∈ cls_fields (obj_class Examples.obj_call) →
          obj_attrs Examples.obj_call !! f = Some val →
          ∃ r, obj_attrs o' !! f = Some r ∧
            match val with
            | VScalar _ => r = val
            | VRef child =>
                rebuilt_child Examples.string_for_Literal (heap Examples.st0) (heap st')
                  child r
            | VList items =>
                ∃ rs, r = VList rs ∧
                  Forall2 (fun item ri =>
                             match item with
                             | VRef child =>
                                 rebuilt_child Examples.string_for_Literal
                                   (heap Examples.st0) (heap st') child ri
                             | _ => ri = item
                             end) items rs
            end
  | Err e st' =>
      raised_by (heap Examples.st0)
        (visit (NodeTransformer Examples.string_for_Literal) 2) Examples.obj_call e st'
  end.
Proof.
  apply (C7_untouched_children_are_rebuilt Examples.string_for_Literal 2 5
           Examples.obj_call Examples.st0).
  - apply map_Forall_singleton. intros self Hself v st. apply extended_store_refl.
  - reflexivity.
  - apply (bool_decide_unpack _). vm_compute. exact I.
  - reflexivity.
Defined.

(** * Further properties of the code *)

(** ** The two engines make the same calls *)

(** X1. Without handlers the two engines make the same calls of [visit] in
    the same order: one call for each occurrence of a node in the unfolding
    of the argument, in pre-order.  Nothing is remembered between the calls:
    a node that two fields hold is visited once for each. *)
Theorem X1_engines_visit_alike (t : tree) (st : state) (node : value) (fuel : nat) :
  repr (heap st) t node →
  is_tnode t = true →
  height t ≤ fuel →
  ∃ st1 node' st2,
    visit (NodeVisitor ∅) fuel node st = Ok (VScalar SNone) st1 ∧
    visit (NodeTransformer ∅) fuel node st = Ok node' st2 ∧
    trace st1 = trace st ++ (VRef <$> preorder t) ∧
    trace st2 = trace st1.
Proof.
  intros Hr Ht Hfuel.
  pose proof (NodeVisitor_plain t node fuel st Hr) as Hv.
  pose proof (NodeTransformer_plain t node fuel st Hr) as Hx.
  destruct t as [|a c kids|]; try discriminate.
  inversion Hr; subst. cbn [transform_field] in Hx.
  unfold plain_outcome in Hv. unfold rebuild_outcome in Hx.
  rewrite decide_True in Hv, Hx by done.
  destruct Hx as (node' & st2 & Hrun & _ & Htr & _).
  eexists _, node', st2. split; [exact Hv|]. split; [exact Hrun|]. by rewrite Htr.
Qed.

Lemma X1_engines_visit_alike_witness :
  ∃ st1 node' st2,
    visit (NodeVisitor ∅) 2 (VRef 1) Examples.st_shared = Ok (VScalar SNone) st1 ∧
    visit (NodeTransformer ∅) 2 (VRef 1) Examples.st_shared = Ok node' st2 ∧
    trace st1 = trace Examples.st_shared ++ (VRef <$> preorder Examples.tree_shared) ∧
    trace st2 = trace st1.
Proof.
  apply (X1_engines_visit_alike Examples.tree_shared Examples.st_shared (VRef 1) 2).
  - apply reprb_sound. vm_compute. reflexivity.
  - reflexivity.
  - vm_compute. lia.
Defined.

(** ** Values that are not nodes *)

(** X2. [visit] on a value that is not a node (a scalar, a list) dispatches
    on the name of its type like on any other; when the visitor has no method
    of that name, [generic_visit] of either engine asks for the fields of the
    value and raises [TypeError], the call logged and nothing built. *)
Theorem X2_visit_non_node_raises (V : visitor) (fuel : nat) (v : value) (st : state)
    (name : string) :
  is_node v = false →
  class_name v st = Ok name st →
  methods V !! ("visit_" +:+ name) = None →
  generic_visit V = NodeVisitor_generic_visit ∨
  generic_visit V = NodeTransformer_generic_visit →
  visit V (S fuel) v st = Err TypeError (State (heap st) (trace st ++ [v])).
Proof.
  intros Hv Hname Hnone Hg. cbn [visit]. unfold bind at 1. unfold log_visit.
  unfold bind at 1.
  assert (Hname' : class_name v (State (heap st) (trace st ++ [v])) =
                   Ok name (State (heap st) (trace st ++ [v]))).
  { destruct v as [[]|a|]; try discriminate; cbn in *; congruence. }
  rewrite Hname', Hnone. cbn [default].
  destruct Hg as [-> | ->].
  - unfold NodeVisitor_generic_visit. unfold bind at 1. rewrite for_fields_unfold.
    destruct v as [s|a|items]; try discriminate; reflexivity.
  - unfold NodeTransformer_generic_visit. unfold bind at 1. rewrite for_fields_unfold.
    destruct v as [s|a|items]; try discriminate; reflexivity.
Qed.

Lemma X2_visit_non_node_raises_witness :
  visit (NodeTransformer Examples.string_for_Literal) 1 (VList [VRef 2]) Examples.st0 =
  Err TypeError (State (heap Examples.st0) (trace Examples.st0 ++ [VList [VRef 2]])).
Proof.
  apply (X2_visit_non_node_raises (NodeTransformer Examples.string_for_Literal) 0
           (VList [VRef 2]) Examples.st0 "list").
  - reflexivity.
  - reflexivity.
  - reflexivity.
  - right. reflexivity.
Defined.

(** ** A declared field that the instance does not have *)

Lemma for_fields_missing_attr {B} (body : B → string → value → M B) a o f :
  (∀ acc g v, preserves extended_store (body acc g v)) →
  f ∈ cls_fields (obj_class o) →
  obj_attrs o !! f = None →
  ∀ acc st, heap st !! a = Some o →
  match for_fields body (VRef a) acc st with
  | Ok _ _ => False
  | Err e st' => e = AttributeError ∨ ∃ acc1 g v st1, body acc1 g v st1 = Err e st'
  end.
Proof.
  intros Hbody Hf Hnone acc st Ha. rewrite for_fields_unfold.
  unfold fields. unfold bind at 1. unfold bind at 1. unfold type_of. rewrite Ha.
  unfold ret at 1. revert Hf acc st Ha.
  generalize (cls_fields (obj_class o)) as names.
  induction names as [|g names IH]; intros Hf acc st Ha.
  - by apply elem_of_nil in Hf.
  - cbn [for_fold]. unfold bind at 1. unfold bind at 1. unfold getattr. rewrite Ha.
    destruct (obj_attrs o !! g) as [val|] eqn:Hg; [|by left].
    apply elem_of_cons in Hf as [->|Hf]; [congruence|].
    pose proof (Hbody acc g val st) as Hext.
    destruct (body acc g val st) as [acc1 st1|e st1] eqn:Hrun; [|right; eauto].
    cbn [final_state] in Hext. unfold extended_store in Hext.
    apply IH; [done|]. by eapply prefix_lookup_Some.
Qed.

Lemma visit_field_error self val st e st' :
  visit_field self val st = Err e st' →
  ∃ v st1, is_node v = true ∧ self v st1 = Err e st'.
Proof.
  destruct val as [s|a|items]; cbn [visit_field].
  - discriminate.
  - unfold bind, ret. destruct (self (VRef a) st) as [r st1|e1 st1] eqn:Hself;
      [discriminate|]. intros [= <- <-]. by exists (VRef a), st.
  - revert st. induction items as [|item items IH]; intros st; cbn [for_each].
    + discriminate.
    + unfold bind at 1. unfold visit_item.
      destruct (is_node item) eqn:Hitem.
      * unfold bind at 1. destruct (self item st) as [r st1|e1 st1] eqn:Hself.
        -- unfold ret at 1. apply IH.
        -- intros [= <- <-]. by exists item, st.
      * unfold ret at 1. apply IH.
Qed.

Lemma visit_field_extends self val :
  (∀ v, preserves extended_store (self v)) →
  preserves extended_store (visit_field self val).
Proof.
  intros Hself.
  pose proof (@preserves_bind extended_store extended_store_trans) as Hbind.
  pose proof (@preserves_ret extended_store extended_store_refl) as Hret.
  destruct val as [s|a|items]; cbn [visit_field].
  - apply Hret.
  - apply Hbind; [apply Hself|intros; apply Hret].
  - apply (preserves_for_each extended_store extended_store_refl extended_store_trans).
    intros item. unfold visit_item. destruct (is_node item); [|apply Hret].
    apply Hbind; [apply Hself|intros; apply Hret].
Qed.

(** X3. [iter_dataclass_fields] does not skip a declared field that the
    instance lacks: [getattr] raises.  On such an instance [generic_visit] of
    neither engine returns; it raises [AttributeError], unless a call of
    [self.visit] on a child held by an earlier field has raised before. *)
Theorem X3_missing_attribute_raises (self : value → M value) (a : addr) (o : obj)
    (st : state) (f : string) :
  (∀ v, preserves extended_store (self v)) →
  heap st !! a = Some o →
  f ∈ cls_fields (obj_class o) →
  obj_attrs o !! f = None →
  match NodeVisitor_generic_visit self (VRef a) st with
  | Ok _ _ => False
  | Err e st' =>
      e = AttributeError ∨ ∃ v st1, is_node v = true ∧ self v st1 = Err e st'
  end ∧
  match NodeTransformer_generic_visit self (VRef a) st with
  | Ok _ _ => False
  | Err e st' =>
      e = AttributeError ∨ ∃ v st1, is_node v = true ∧ self v st1 = Err e st'
  end.
Proof.
  intros Hext Ha Hf Hnone. split.
  - unfold NodeVisitor_generic_visit. unfold bind at 1.
    pose proof (for_fields_missing_attr
                  (fun (_ : unit) (_ : string) val => visit_field self val) a o f
                  ltac:(intros ? ? val; by apply visit_field_extends)
                  Hf Hnone tt st Ha) as H.
    destruct (for_fields _ (VRef a) tt st) as [x st1|e st1]; [done|].
    destruct H as [->|(acc1 & g & v & st2 & Hrun)]; [by left|].
    right. by eapply visit_field_error.
  - unfold NodeTransformer_generic_visit. unfold bind at 1.
    pose proof (for_fields_missing_attr
                  (fun (kw : gmap string value) field val =>
                     new_val <- transform_field self val ;;
                     ret (<[field := new_val]> kw)) a o f) as H.
    assert (Hbody : ∀ (kw : gmap string value) g v,
              preserves extended_store
                (new_val <- transform_field self v ;; ret (<[g := new_val]> kw))).
    { intros kw g v.
      apply (preserves_bind extended_store extended_store_trans);
        [by apply transform_field_extends|].
      intros. apply (preserves_ret extended_store extended_store_refl). }
    specialize (H Hbody Hf Hnone ∅ st Ha).
    destruct (for_fields _ (VRef a) ∅ st) as [x st1|e st1]; [done|].
    destruct H as [->|(acc1 & g & v & st2 & Hrun)]; [by left|].
    right. unfold bind, ret in Hrun.
    pose proof (transform_field_spec self Hext [] v st2 (prefix_nil _)) as Hspec.
    destruct (transform_field self v st2) as [r st3|e3 st3]; [discriminate|].
    injection Hrun as <- <-.
    destruct Hspec as (w & _ & Hw & st4 & _ & Hraise). eauto.
Qed.

Lemma X3_missing_attribute_raises_witness :
  match
    NodeVisitor_generic_visit (visit (NodeVisitor ∅) 1) (VRef 2) Examples.st_partial
  with
  | Ok _ _ => False
  | Err e st' =>
      e = AttributeError ∨
      ∃ v st1, is_node v = true ∧ visit (NodeVisitor ∅) 1 v st1 = Err e st'
  end ∧
  match
    NodeTransformer_generic_visit (visit (NodeVisitor ∅) 1) (VRef 2) Examples.st_partial
  with
  | Ok _ _ => False
  | Err e st' =>
      e = AttributeError ∨
      ∃ v st1, is_node v = true ∧ visit (NodeVisitor ∅) 1 v st1 = Err e st'
  end.
Proof.
  apply (X3_missing_attribute_raises (visit (NodeVisitor ∅) 1) 2 Examples.obj_partial
           Examples.st_partial "right").
  - apply (preserves_visit extended_store extended_store_refl extended_store_trans);
      [by intros st tr; unfold extended_store| |apply map_Forall_empty].
    apply (preserves_NodeVisitor_generic_visit extended_store extended_store_refl
             extended_store_trans).
  - reflexivity.
  - apply (bool_decide_unpack _). vm_compute. exact I.
  - reflexivity.
Defined.

(** ** NodeVisitor.generic_visit, whatever the handlers *)

Lemma visit_items_spec self h0 items :
  (∀ v, preserves extended_store (self v)) →
  ∀ st, h0 `prefix_of` heap st →
  match for_each (visit_item self) items st with
  | Ok _ st' => heap st `prefix_of` heap st'
  | Err e st' => ∃ v, v ∈ items ∧ is_node v = true ∧ raised_on h0 self v e st'
  end.
Proof.
  intros Hself. induction items as [|item items IH]; intros st Hst; cbn [for_each].
  - by unfold ret.
  - unfold bind at 1. unfold visit_item. destruct (is_node item) eqn:Hitem.
    + unfold bind at 1. pose proof (Hself item st) as Hext.
      destruct (self item st) as [r st1|e st1] eqn:Hrun.
      * unfold ret at 1. cbn [final_state] in Hext. unfold extended_store in Hext.
        specialize (IH st1 ltac:(by etrans)).
        destruct (for_each _ items st1) as [x st2|e st2].
        -- by etrans.
        -- destruct IH as (v & Hv & Hnode & Hraise). exists v.
           split; [by apply elem_of_cons; right|done].
      * exists item. split_and!; [by apply elem_of_cons; left|done|by exists st].
    + unfold ret at 1. specialize (IH st Hst).
      destruct (for_each _ items st) as [x st2|e st2]; [done|].
      destruct IH as (v & Hv & Hnode & Hraise). exists v.
      split; [by apply elem_of_cons; right|done].
Qed.

Lemma visit_field_spec self h0 val st :
  (∀ v, preserves extended_store (self v)) →
  h0 `prefix_of` heap st →
  match visit_field self val st with
  | Ok _ st' => heap st `prefix_of` heap st'
  | Err e st' => ∃ v, held_by val v ∧ is_node v = true ∧ raised_on h0 self v e st'
  end.
Proof.
  intros Hself Hst. destruct val as [s|a|items]; cbn [visit_field].
  - by unfold ret.
  - unfold bind, ret. pose proof (Hself (VRef a) st) as Hext.
    destruct (self (VRef a) st) as [r st1|e st1] eqn:Hrun; [done|].
    exists (VRef a). split_and!; [by left|done|by exists st].
  - pose proof (visit_items_spec self h0 items Hself st Hst) as H.
    destruct (for_each _ items st) as [x st1|e st1]; [done|].
    destruct H as (v & Hv & Hnode & Hraise). exists v.
    split_and!; [right; eauto|done|done].
Qed.

Lemma NodeVisitor_generic_visit_spec self a o st :
  (∀ v, preserves extended_store (self v)) →
  heap st !! a = Some o →
  dataclass_instance o →
  match NodeVisitor_generic_visit self (VRef a) st with
  | Ok r st' => r = VScalar SNone ∧ heap st `prefix_of` heap st'
  | Err e st' => raised_by (heap st) self o e st'
  end.
Proof.
  intros Hself Ha [_ Hattrs]. unfold NodeVisitor_generic_visit. unfold bind at 1.
  rewrite for_fields_unfold. unfold fields. unfold bind at 1. unfold bind at 1.
  unfold type_of. rewrite Ha. unfold ret at 1.
  assert (Hloop : ∀ names st1,
    Forall (fun f => f ∈ cls_fields (obj_class o) ∧ is_Some (obj_attrs o !! f)) names →
    heap st `prefix_of` heap st1 →
    match
      for_fold (fun (_ : unit) field =>
                  val <- getattr (VRef a) field ;; visit_field self val) names tt st1
    with
    | Ok _ st' => heap st `prefix_of` heap st'
    | Err e st' => raised_by (heap st) self o e st'
    end).
  { induction names as [|g names IH]; intros st1 Hnames Hst1; cbn [for_fold].
    - by unfold ret.
    - apply Forall_cons in Hnames as [[Hg [val Hval]] Hnames].
      unfold bind at 1. unfold bind at 1. unfold getattr.
      rewrite (prefix_lookup_Some _ _ _ _ Ha Hst1), Hval.
      pose proof (visit_field_spec self (heap st) val st1 Hself Hst1) as Hspec.
      destruct (visit_field self val st1) as [[] st2|e st2].
      + apply IH; [done|by etrans].
      + destruct Hspec as (v & Hheld & Hnode & Hraise).
        exists v. split; [|done]. split; [done|]. eauto. }
  specialize (Hloop (cls_fields (obj_class o)) st).
  destruct (for_fold _ _ tt st) as [x st1|e st1].
  - unfold ret. split; [done|]. apply Hloop; [|done].
    rewrite Forall_forall in Hattrs. apply Forall_forall. intros f Hf.
    split; [done|by apply Hattrs].
  - apply Hloop; [|done].
    rewrite Forall_forall in Hattrs. apply Forall_forall. intros f Hf.
    split; [done|by apply Hattrs].
Qed.

(** X4. [NodeVisitor.generic_visit] on a dataclass instance has two
    outcomes.  It returns [None], whatever the calls of [self.visit] have
    returned.  Or it ends with the exception of a call of [self.visit] on a
    child and in the state that this call has left: the exception is not
    caught and nothing runs after it.  When no call on a child raises, it
    returns. *)
Theorem X4_generic_visit_None_or_child_exception (self : value → M value) (a : addr)
    (o : obj) (st : state) :
  (∀ v, preserves extended_store (self v)) →
  heap st !! a = Some o →
  dataclass_instance o →
  match NodeVisitor_generic_visit self (VRef a) st with
  | Ok r st' => r = VScalar SNone
  | Err e st' => raised_by (heap st) self o e st'
  end ∧
  ((∀ v st1, is_child o v → heap st `prefix_of` heap st1 →
             ∃ r st2, self v st1 = Ok r st2) →
   ∃ st', NodeVisitor_generic_visit self (VRef a) st = Ok (VScalar SNone) st').
Proof.
  intros Hself Ha Ho.
  pose proof (NodeVisitor_generic_visit_spec self a o st Hself Ha Ho) as H.
  destruct (NodeVisitor_generic_visit self (VRef a) st) as [r st'|e st'].
  - destruct H as [-> _]. eauto.
  - split; [done|]. intros Htotal.
    destruct H as (v & Hv & st1 & Hpre & Hraise).
    destruct (Htotal v st1 Hv Hpre) as (r & st2 & Hok). congruence.
Qed.

Lemma X4_generic_visit_None_or_child_exception_witness :
  match
    NodeVisitor_generic_visit (visit (NodeVisitor Examples.seven_for_Call) 0) (VRef 3)
      Examples.st0
  with
  | Ok r st' => r = VScalar SNone
  | Err e st' =>
      raised_by (heap Examples.st0) (visit (NodeVisitor Examples.seven_for_Call) 0)
        Examples.obj_eq e st'
  end.
Proof.
  apply (X4_generic_visit_None_or_child_exception
           (visit (NodeVisitor Examples.seven_for_Call) 0) 3 Examples.obj_eq Examples.st0).
  - intros v st. apply extended_store_refl.
  - reflexivity.
  - apply (bool_decide_unpack _). vm_compute. exact I.
Defined.

(** ** What generic_visit asks of self.visit *)

Lemma for_each_ext {A} (body1 body2 : A → M unit) l :
  (∀ x st, body1 x st = body2 x st) →
  ∀ st, for_each body1 l st = for_each body2 l st.
Proof.
  intros Hb. induction l as [|x l IH]; intros st; cbn [for_each]; [done|].
  apply bind_ext; auto.
Qed.

Lemma for_fold_ext {A B} (body1 body2 : B → A → M B) l :
  (∀ acc x st, body1 acc x st = body2 acc x st) →
  ∀ acc st, for_fold body1 l acc st = for_fold body2 l acc st.
Proof.
  intros Hb. induction l as [|x l IH]; intros acc st; cbn [for_fold]; [done|].
  apply bind_ext; auto.
Qed.

Lemma for_fields_ext {B} (body1 body2 : B → string → value → M B) node :
  (∀ acc f v st, body1 acc f v st = body2 acc f v st) →
  ∀ acc st, for_fields body1 node acc st = for_fields body2 node acc st.
Proof.
  intros Hb acc st. rewrite !for_fields_unfold.
  apply bind_ext; [done|]. intros names st1.
  apply for_fold_ext. intros acc1 f st2. apply bind_ext; [done|]. intros v st3. apply Hb.
Qed.

Lemma visit_field_same_effect self1 self2 val st :
  (∀ v st1, is_node v = true → same_effect (self1 v st1) (self2 v st1)) →
  visit_field self1 val st = visit_field self2 val st.
Proof.
  intros Hsame.
  assert (Hnode : ∀ v st1, is_node v = true →
            (self1 v ;; ret tt) st1 = (self2 v ;; ret tt) st1).
  { intros v st1 Hv. unfold bind, ret. specialize (Hsame v st1 Hv).
    destruct (self1 v st1), (self2 v st1); cbn in Hsame; try done.
    - by subst.
    - by destruct Hsame as [-> ->]. }
  destruct val as [s|a|items]; cbn [visit_field].
  - done.
  - by apply Hnode.
  - apply for_each_ext. intros item st1. unfold visit_item.
    destruct (is_node item) eqn:Hitem; [by apply Hnode|done].
Qed.

(** X5. [NodeVisitor.generic_visit] uses of [self.visit] only what it does
    on nodes, and of that only the effect: with two [self.visit] that leave
    the same state (or raise the same exception) on every node, it has the
    same outcome, whatever they return and whatever they do on other
    values.  So a value that is not a node is never visited and the result of
    a visit is never read. *)
Theorem X5_visitor_reads_no_result (self1 self2 : value → M value) (node : value)
    (st : state) :
  (∀ v st1, is_node v = true → same_effect (self1 v st1) (self2 v st1)) →
  NodeVisitor_generic_visit self1 node st = NodeVisitor_generic_visit self2 node st.
Proof.
  intros Hsame. unfold NodeVisitor_generic_visit.
  apply bind_ext; [|done].
  apply for_fields_ext. intros _ f v st1. by apply visit_field_same_effect.
Qed.

Lemma X5_visitor_reads_no_result_witness :
  NodeVisitor_generic_visit (visit (NodeVisitor ∅) 2) (VRef 5) Examples.st0 =
  NodeVisitor_generic_visit
    (on_nodes_only (returning (VScalar (SInt 0)) (visit (NodeVisitor ∅) 2)))
    (VRef 5) Examples.st0.
Proof.
  apply (X5_visitor_reads_no_result (visit (NodeVisitor ∅) 2)
           (on_nodes_only (returning (VScalar (SInt 0)) (visit (NodeVisitor ∅) 2)))
           (VRef 5) Examples.st0).
  intros v st1 Hv. unfold on_nodes_only, returning, bind, ret. rewrite Hv.
  destruct (visit (NodeVisitor ∅) 2 v st1); simpl; auto.
Defined.

Lemma transform_field_same self1 self2 val st :
  (∀ v st1, is_node v = true → self1 v st1 = self2 v st1) →
  transform_field self1 val st = transform_field self2 val st.
Proof.
  intros Hsame. destruct val as [s|a|items]; cbn [transform_field].
  - done.
  - by apply Hsame.
  - apply bind_ext; [|done]. apply for_fold_ext. intros acc item st1.
    unfold transform_item. destruct (is_node item) eqn:Hitem; [|done].
    apply bind_ext; [by apply Hsame|done].
Qed.

(** X6. [NodeTransformer.generic_visit] uses of [self.visit] only what it
    does on nodes: with two [self.visit] that agree on every node it has the
    same outcome.  A value that is not a node (a scalar field value, a list
    item that is not a node) is never visited. *)
Theorem X6_transformer_visits_nodes_only (self1 self2 : value → M value) (node : value)
    (st : state) :
  (∀ v st1, is_node v = true → self1 v st1 = self2 v st1) →
  NodeTransformer_generic_visit self1 node st =
  NodeTransformer_generic_visit self2 node st.
Proof.
  intros Hsame. unfold NodeTransformer_generic_visit.
  apply bind_ext; [|done].
  apply for_fields_ext. intros kw f v st1.
  apply bind_ext; [by apply transform_field_same|done].
Qed.

Lemma X6_transformer_visits_nodes_only_witness :
  NodeTransformer_generic_visit (visit (NodeTransformer ∅) 2) (VRef 5) Examples.st0 =
  NodeTransformer_generic_visit (on_nodes_only (visit (NodeTransformer ∅) 2)) (VRef 5)
    Examples.st0.
Proof.
  apply (X6_transformer_visits_nodes_only (visit (NodeTransformer ∅) 2)
           (on_nodes_only (visit (NodeTransformer ∅) 2)) (VRef 5) Examples.st0).
  intros v st1 Hv. unfold on_nodes_only. by rewrite Hv.
Defined.

(** ** Handlers for kinds that the tree does not have *)

Lemma NodeVisitor_unhandled (hs : gmap string method) (t : tree) :
  ∀ v fuel st, repr (heap st) t v → unhandled hs t →
    (is_tnode t = true →
     visit (NodeVisitor hs) fuel v st = visit (NodeVisitor ∅) fuel v st) ∧
    visit_field (visit (NodeVisitor hs) fuel) v st =
    visit_field (visit (NodeVisitor ∅) fuel) v st.
Proof.
  induction t as [s|a c kids IH|items IH] using tree_nested_ind;
    intros v fuel st Hr Hun; inversion Hr; subst.
  - done.
  - match goal with H : heap st !! a = Some o |- _ => rename H into Ha end.
    match goal with H : Forall2 _ _ kids |- _ => rename H into Hkids end.
    apply unhandled_node in Hun as [Hnone Hunkids].
    assert (Hvisit : visit (NodeVisitor hs) fuel (VRef a) st =
                     visit (NodeVisitor ∅) fuel (VRef a) st).
    { destruct fuel as [|fuel]; [done|].
      rewrite !(visit_dispatch _ fuel a o st Ha).
      cbn [methods generic_visit NodeVisitor]. rewrite Hnone, lookup_empty.
      cbn [default]. unfold NodeVisitor_generic_visit.
      apply bind_ext; [|done]. rewrite !for_fields_unfold.
      apply bind_ext_ok; [done|]. intros names st1 Hnames.
      unfold fields, bind, type_of, ret in Hnames. cbn [heap] in Hnames.
      rewrite Ha in Hnames. injection Hnames as <- <-.
      apply (for_fold_agree (fun st1 => heap st `prefix_of` heap st1)); [|done].
      intros [] f st1 Hf Hst1.
      destruct (Forall2_elem_of_l _ _ _ _ Hkids Hf) as (k & Hk & w & Hw & Hrk).
      rewrite Forall_forall in IH, Hunkids. split.
      - apply bind_ext_ok; [done|]. intros val st2 Hget.
        destruct (getattr_Ok _ _ _ _ _ _ _ Ha Hst1 Hget) as [Hval ->].
        assert (val = w) as -> by congruence.
        apply (IH k Hk); [by eapply repr_prefix|by apply Hunkids].
      - intros u st2 Hrun.
        assert (Hext : preserves extended_store
                  (val <- getattr (VRef a) f ;;
                   visit_field (visit (NodeVisitor ∅) fuel) val)).
        { apply (preserves_bind extended_store extended_store_trans);
            [apply (preserves_getattr extended_store extended_store_refl)|intros val].
          apply visit_field_extends, NodeVisitor_visit_extends, map_Forall_empty. }
        specialize (Hext st1). rewrite Hrun in Hext. cbn in Hext.
        unfold extended_store in Hext. by etrans. }
    split; [done|]. cbn [visit_field]. by apply bind_ext.
  - match goal with H : Forall2 (repr _) items _ |- _ => rename H into Hitems end.
    split; [done|]. cbn [visit_field].
    apply (for_each_agree (fun st1 => heap st `prefix_of` heap st1)); [|done].
    intros item st1 Hitem Hst1.
    destruct (Forall2_elem_of_r _ _ _ _ Hitems Hitem) as (i & Hi & Hri).
    rewrite Forall_forall in IH. split.
    + unfold visit_item. destruct (is_node item) eqn:Hnode; [|done].
      apply bind_ext; [|done].
      destruct item as [|child|]; try discriminate.
      assert (Hti : is_tnode i = true) by (by inversion Hri).
      apply (IH i Hi (VRef child) fuel st1);
        [by eapply repr_prefix|by eapply unhandled_item|done].
    + intros u st2 Hrun.
      assert (Hext : preserves extended_store
                (visit_item (visit (NodeVisitor ∅) fuel) item)).
      { unfold visit_item. destruct (is_node item).
        - apply (preserves_bind extended_store extended_store_trans).
          + apply NodeVisitor_visit_extends, map_Forall_empty.
          + intros. apply (preserves_ret extended_store extended_store_refl).
        - apply (preserves_ret extended_store extended_store_refl). }
      specialize (Hext st1). rewrite Hrun in Hext. cbn in Hext.
      unfold extended_store in Hext. by etrans.
Qed.

(** X7. A handler changes nothing on a tree that has no node of its kind:
    when no node of the tree has a kind for which a handler is registered,
    [visit] of either engine has the outcome that it has without handlers,
    with any bound on the recursion. *)
Theorem X7_handlers_of_absent_kinds (hs : gmap string method) (t : tree) (st : state)
    (node : value) (fuel : nat) :
  repr (heap st) t node →
  is_tnode t = true →
  unhandled hs t →
  visit (NodeVisitor hs) fuel node st = visit (NodeVisitor ∅) fuel node st ∧
  visit (NodeTransformer hs) fuel node st = visit (NodeTransformer ∅) fuel node st.
Proof.
  intros Hr Ht Hun. split.
  - by apply (NodeVisitor_unhandled hs t node fuel st Hr Hun).
  - pose proof (NodeTransformer_unhandled hs t node fuel st Hr Hun) as H.
    destruct t; try discriminate. by inversion Hr; subst.
Qed.

Lemma X7_handlers_of_absent_kinds_witness :
  visit (NodeVisitor Examples.boolean_handler) 3 (VRef 5) Examples.st0 =
    visit (NodeVisitor ∅) 3 (VRef 5) Examples.st0 ∧
  visit (NodeTransformer Examples.boolean_handler) 3 (VRef 5) Examples.st0 =
    visit (NodeTransformer ∅) 3 (VRef 5) Examples.st0.
Proof.
  apply (X7_handlers_of_absent_kinds Examples.boolean_handler Examples.tree0
           Examples.st0 (VRef 5) 3).
  - apply reprb_sound. vm_compute. reflexivity.
  - reflexivity.
  - apply (bool_decide_unpack _). vm_compute. exact I.
Defined.

(** ** A child that its handler returns *)

(** X8. The original child is in the rebuilt node where a handler returns
    it: when the kind of a node has no handler and the handler of the kind of
    one of its children returns the child it is given, the node that the
    transformation returns holds that very child in the field, the same
    instance and not a copy. *)
Theorem X8_returned_child_is_shared (hs : gmap string method) (fuel : nat)
    (a : addr) (o : obj) (st : state) (f : string) (child : addr) (o_child : obj)
    (handler : method) :
  map_Forall (fun _ h => method_preserves extended_store h) hs →
  heap st !! a = Some o →
  dataclass_instance o →
  hs !! ("visit_" +:+ cls_name (obj_class o)) = None →
  f ∈ cls_fields (obj_class o) →
  obj_attrs o !! f = Some (VRef child) →
  heap st !! child = Some o_child →
  hs !! ("visit_" +:+ cls_name (obj_class o_child)) = Some handler →
  (∀ self st1 r st2, handler self (VRef child) st1 = Ok r st2 → r = VRef child) →
  match visit (NodeTransformer hs) (S fuel) (VRef a) st with
  | Ok node' st' =>
      ∃ a' o', node' = VRef a' ∧ heap st' !! a' = Some o' ∧
               obj_attrs o' !! f = Some (VRef child) ∧
               heap st' !! child = Some o_child
  | Err e st' => raised_by (heap st) (visit (NodeTransformer hs) fuel) o e st'
  end.
Proof.
  intros Hhs Ha Ho Hnone Hf Hchild Hoc Hsome Hsame.
  rewrite (visit_dispatch _ fuel a o st Ha).
  cbn [methods generic_visit NodeTransformer]. rewrite Hnone. cbn [default].
  pose proof (NodeTransformer_generic_visit_spec (visit (NodeTransformer hs) fuel)
                (NodeTransformer_visit_extends hs fuel Hhs) (heap st) a o
                (State (heap st) (trace st ++ [VRef a])) Ha ltac:(done) Ho) as H.
  destruct (NodeTransformer_generic_visit _ _ _) as [node' st'|e st']; [|done].
  destruct H as (kw & st1 & -> & -> & Hpre & Hdom & Hfields). cbn [heap] in Hpre.
  destruct (Hfields f _ Hf Hchild) as (r & Hr & st2 & st3 & Hpre2 & Hrun).
  exists (length (heap st1)), (Obj (obj_class o) kw). cbn [heap obj_attrs].
  split_and!; [done|by apply list_lookup_middle| |].
  - destruct fuel as [|fuel]; [discriminate|].
    rewrite (visit_dispatch _ fuel child o_child st2
               (prefix_lookup_Some _ _ _ _ Hoc Hpre2)) in Hrun.
    cbn [methods generic_visit NodeTransformer] in Hrun. rewrite Hsome in Hrun.
    cbn [default] in Hrun. apply Hsame in Hrun. by subst.
  - apply lookup_app_l_Some. by eapply prefix_lookup_Some.
Qed.

Lemma X8_returned_child_is_shared_witness :
  match visit (NodeTransformer Examples.same_Literal) 2 (VRef 3) Examples.st0 with
  | Ok node' st' =>
      ∃ a' o', node' = VRef a' ∧ heap st' !! a' = Some o' ∧
               obj_attrs o' !! "right" = Some (VRef 2) ∧
               heap st' !! 2 = Some Examples.obj_one
  | Err e st' =>
      raised_by (heap Examples.st0) (visit (NodeTransformer Examples.same_Literal) 1)
        Examples.obj_eq e st'
  end.
Proof.
  apply (X8_returned_child_is_shared Examples.same_Literal 1 3 Examples.obj_eq
           Examples.st0 "right" 2 Examples.obj_one Examples.visit_Literal_same).
  - apply map_Forall_singleton. intros self Hself v st. apply extended_store_refl.
  - reflexivity.
  - apply (bool_decide_unpack _). vm_compute. exact I.
  - reflexivity.
  - apply (bool_decide_unpack _). vm_compute. exact I.
  - reflexivity.
  - reflexivity.
  - reflexivity.
  - intros self st1 r st2. unfold Examples.visit_Literal_same, ret. congruence.
Defined.

(** ** What the transformation builds *)

Lemma transform_field_plain_extends fuel val :
  preserves extended_store (transform_field (visit (NodeTransformer ∅) fuel) val).
Proof. apply transform_field_extends, NodeTransformer_visit_extends, map_Forall_empty. Qed.

Lemma transform_items_allocs fuel h items vs :
  Forall builds_one_per_node items →
  Forall2 (repr h) items vs →
  ∀ acc st new st', h `prefix_of` heap st →
  for_fold (transform_item (visit (NodeTransformer ∅) fuel)) vs acc st = Ok new st' →
  length (heap st') = length (heap st) + length (preorder (TList items)).
Proof.
  intros HP Hr. induction Hr as [|t v items vs Hrt _ IH]; intros acc st new st' Hst.
  - cbn. intros [= _ <-]. lia.
  - apply Forall_cons in HP as [HPt HPs]. cbn [for_fold]. unfold bind at 1.
    change (preorder (TList (t :: items))) with
      (match t with TNode _ _ _ => preorder t | _ => [] end ++ preorder (TList items)).
    rewrite length_app. unfold transform_item.
    destruct (is_node v) eqn:Hv.
    + unfold bind at 1.
      pose proof (NodeTransformer_visit_extends ∅ fuel (map_Forall_empty _) v st) as Hext.
      destruct (visit _ fuel v st) as [r st1|e st1] eqn:Hrun; [|discriminate].
      unfold ret at 1. intros Hrest. cbn in Hext. unfold extended_store in Hext.
      apply IH in Hrest; [|done|by etrans].
      destruct v as [|child|]; try discriminate.
      assert (Hti : is_tnode t = true) by (by inversion Hrt).
      destruct (HPt (VRef child) fuel st r st1 (repr_prefix _ _ _ _ Hst Hrt) Hrun)
        as [Hlen _].
      destruct t; try discriminate. lia.
    + unfold ret at 1. intros Hrest. apply IH in Hrest; [|done..].
      destruct t; [cbn [length]; lia| |cbn [length]; lia]. by inversion Hrt; subst.
Qed.

Lemma transform_fields_allocs fuel h a o names kids :
  Forall builds_one_per_node kids →
  Forall2 (fun f k => ∃ v, obj_attrs o !! f = Some v ∧ repr h k v) names kids →
  h !! a = Some o →
  ∀ (kw : gmap string value) st kw' st', h `prefix_of` heap st →
  for_fold (fun kw field =>
              val <- getattr (VRef a) field ;;
              new_val <- transform_field (visit (NodeTransformer ∅) fuel) val ;;
              ret (<[field := new_val]> kw)) names kw st = Ok kw' st' →
  length (heap st') = length (heap st) + length (flat_map preorder kids).
Proof.
  intros HP Hr Ha.
  induction Hr as [|f k names kids (w & Hw & Hrk) _ IH]; intros kw st kw' st' Hst.
  - cbn. intros [= _ <-]. lia.
  - apply Forall_cons in HP as [HPk HPs]. cbn [for_fold flat_map].
    rewrite length_app. unfold bind at 1. unfold bind at 1. unfold getattr.
    rewrite (prefix_lookup_Some _ _ _ _ Ha Hst), Hw. unfold bind at 1.
    pose proof (transform_field_plain_extends fuel w st) as Hext.
    destruct (transform_field _ w st) as [r st1|e st1] eqn:Hrun; [|discriminate].
    unfold ret at 1. intros Hrest. cbn in Hext. unfold extended_store in Hext.
    apply IH in Hrest; [|done|by etrans].
    destruct (HPk w fuel st r st1 (repr_prefix _ _ _ _ Hst Hrk) Hrun) as [Hlen _].
    lia.
Qed.

Lemma NodeTransformer_allocs t : builds_one_per_node t.
Proof.
  induction t as [s|a c kids IH|items IH] using tree_nested_ind;
    intros v fuel st v' st' Hr; inversion Hr; subst.
  - cbn. intros [= _ <-]. split; [lia|done].
  - match goal with H : heap st !! a = Some o |- _ => rename H into Ha end.
    match goal with H : Forall2 _ _ kids |- _ => rename H into Hkids end.
    cbn [transform_field preorder length]. destruct fuel as [|fuel]; [discriminate|].
    rewrite (visit_dispatch _ fuel a o st Ha).
    cbn [methods generic_visit NodeTransformer]. rewrite lookup_empty. cbn [default].
    unfold NodeTransformer_generic_visit. unfold bind at 1. rewrite for_fields_unfold.
    unfold fields. unfold bind at 1. unfold bind at 1. unfold type_of at 1.
    cbn [heap]. rewrite Ha. unfold ret at 1.
    destruct (for_fold _ _ ∅ _) as [kw st1|e st1] eqn:Hloop; [|discriminate].
    apply (transform_fields_allocs fuel (heap st) a o _ _ IH Hkids Ha) in Hloop;
      [|done]. cbn [heap] in Hloop.
    unfold bind, type_of, construct.
    destruct (heap st1 !! a); [|discriminate].
    case_bool_decide; [|discriminate]. intros [= <- <-]. cbn [heap].
    rewrite length_app. cbn [length]. split; [lia|]. intros _. f_equal. lia.
  - match goal with H : Forall2 (repr _) items _ |- _ => rename H into Hitems end.
    cbn [transform_field]. unfold bind, ret.
    destruct (for_fold _ vs [] st) as [new st1|e st1] eqn:Hloop; [|discriminate].
    intros [= <- <-]. split; [|done].
    by eapply transform_items_allocs.
Qed.

(** X9. The transformation without handlers builds exactly one instance for
    each node of the tree (for each occurrence, when a node is shared), the
    children of a node before the node: the store grows by the number of
    nodes, and the node returned is the last instance built. *)
Theorem X9_one_instance_per_node (t : tree) (st : state) (node : value) (fuel : nat) :
  repr (heap st) t node →
  is_tnode t = true →
  height t ≤ fuel →
  ∃ st',
    visit (NodeTransformer ∅) fuel node st = Ok (VRef (length (heap st') - 1)) st' ∧
    length (heap st') = length (heap st) + length (preorder t).
Proof.
  intros Hr Ht Hfuel.
  pose proof (NodeTransformer_plain t node fuel st Hr) as H.
  unfold rebuild_outcome in H. rewrite decide_True in H by done.
  destruct H as (node' & st' & Hrun & _).
  destruct (NodeTransformer_allocs t node fuel st node' st' Hr Hrun) as [Hlen Hlast].
  exists st'. rewrite <- (Hlast Ht). split; [|done].
  destruct t; try discriminate. by inversion Hr; subst.
Qed.

Lemma X9_one_instance_per_node_witness :
  ∃ st',
    visit (NodeTransformer ∅) 2 (VRef 1) Examples.st_shared =
      Ok (VRef (length (heap st') - 1)) st' ∧
    length (heap st') =
      length (heap Examples.st_shared) + length (preorder Examples.tree_shared).
Proof.
  apply (X9_one_instance_per_node Examples.tree_shared Examples.st_shared (VRef 1) 2).
  - apply reprb_sound. vm_compute. reflexivity.
  - reflexivity.
  - vm_compute. lia.
Defined.

(** ** One transformation after the other *)

Lemma height_shape t : height t = shape_height (shape_of t).
Proof.
  induction t as [s|a c kids IH|items IH] using tree_nested_ind; cbn [height shape_of
    shape_height].
  - done.
  - f_equal. f_equal. rewrite map_map. apply map_ext_Forall. exact IH.
  - f_equal. rewrite map_map. apply map_ext_Forall.
    eapply Forall_impl; [exact IH|]. intros i Hi. by destruct i.
Qed.

(** X10. Plain transformations compose.  What one returns is a tree of the
    same height, so that the bound on the recursion that was enough for the
    input is enough for the result: a second transformation of the result
    returns a tree of the shape of the input, a traversal of the result
    returns, and the input is still in the store as it was. *)
Theorem X10_transformations_compose (t : tree) (st : state) (node : value) (fuel : nat) :
  repr (heap st) t node →
  is_tnode t = true →
  height t ≤ fuel →
  ∃ node1 st1 node2 st2 t2,
    visit (NodeTransformer ∅) fuel node st = Ok node1 st1 ∧
    visit (NodeTransformer ∅) fuel node1 st1 = Ok node2 st2 ∧
    repr (heap st2) t2 node2 ∧
    shape_of t2 = shape_of t ∧
    repr (heap st2) t node ∧
    ∃ st3, visit (NodeVisitor ∅) fuel node1 st1 = Ok (VScalar SNone) st3.
Proof.
  intros Hr Ht Hfuel.
  assert (Hstep : ∀ t st node, repr (heap st) t node → is_tnode t = true →
            height t ≤ fuel →
            ∃ node1 st1 t1, visit (NodeTransformer ∅) fuel node st = Ok node1 st1 ∧
              heap st `prefix_of` heap st1 ∧ repr (heap st1) t1 node1 ∧
              shape_of t1 = shape_of t ∧ is_tnode t1 = true ∧ height t1 ≤ fuel).
  { clear. intros t st node Hr Ht Hfuel.
    pose proof (NodeTransformer_plain t node fuel st Hr) as H.
    unfold rebuild_outcome in H. rewrite decide_True in H by done.
    destruct H as (node1 & st1 & Hrun & Hpre & _ & t1 & Hr1 & Hsh & _).
    exists node1, st1, t1. split_and!; try done.
    - destruct t; try discriminate. by inversion Hr; subst.
    - destruct t; try discriminate. by destruct t1.
    - by rewrite height_shape, Hsh, <- height_shape. }
  destruct (Hstep t st node Hr Ht Hfuel)
    as (node1 & st1 & t1 & Hrun1 & Hpre1 & Hr1 & Hsh1 & Ht1 & Hfuel1).
  destruct (Hstep t1 st1 node1 Hr1 Ht1 Hfuel1)
    as (node2 & st2 & t2 & Hrun2 & Hpre2 & Hr2 & Hsh2 & _ & _).
  exists node1, st1, node2, st2, t2. split_and!; try done.
  - congruence.
  - eapply repr_prefix; [|exact Hr]. by etrans.
  - pose proof (NodeVisitor_plain t1 node1 fuel st1 Hr1) as H.
    destruct t1; try discriminate.
    unfold plain_outcome in H. rewrite decide_True in H by done. eauto.
Qed.

Lemma X10_transformations_compose_witness :
  ∃ node1 st1 node2 st2 t2,
    visit (NodeTransformer ∅) 3 (VRef 5) Examples.st0 = Ok node1 st1 ∧
    visit (NodeTransformer ∅) 3 node1 st1 = Ok node2 st2 ∧
    repr (heap st2) t2 node2 ∧
    shape_of t2 = shape_of Examples.tree0 ∧
    repr (heap st2) Examples.tree0 (VRef 5) ∧
    ∃ st3, visit (NodeVisitor ∅) 3 node1 st1 = Ok (VScalar SNone) st3.
Proof.
  apply (X10_transformations_compose Examples.tree0 Examples.st0 (VRef 5) 3).
  - apply reprb_sound. vm_compute. reflexivity.
  - reflexivity.
  - vm_compute. lia.
Defined.

(** ** Handlers that do not descend *)

Lemma visits_reached_field hs t v fuel st :
  visits_reached hs t → repr (heap st) t v →
  plain_outcome (reach_depth hs t) (reached hs t) fuel st tt
    (visit_field (visit (NodeVisitor hs) fuel) v st).
Proof.
  intros Ht Hr. specialize (Ht v fuel st Hr).
  destruct t; try done.
  destruct Ht as [r Ht].
  inversion Hr; subst. unfold plain_outcome in *. cbn [visit_field]. unfold bind.
  destruct (decide _).
  - by rewrite Ht.
  - destruct Ht as [tr ->]. eauto.
Qed.

Lemma visit_items_reached hs fuel h items vs :
  Forall (visits_reached hs) items →
  Forall2 (repr h) items vs →
  ∀ st, heap st = h →
  plain_outcome (reach_depth hs (TList items)) (reached hs (TList items)) fuel st tt
    (for_each (visit_item (visit (NodeVisitor hs) fuel)) vs st).
Proof.
  intros HP Hr.
  induction Hr as [|t v items vs Hrt _ IH]; intros st Hst.
  - apply plain_outcome_skip.
  - apply Forall_cons in HP as [HPt HPs]. cbn [for_each].
    change (reach_depth hs (TList (t :: items))) with
      (match t with TNode _ _ _ => reach_depth hs t | _ => 0 end
         `max` reach_depth hs (TList items)).
    change (reached hs (TList (t :: items))) with
      (match t with TNode _ _ _ => reached hs t | _ => [] end ++ reached hs (TList items)).
    apply plain_outcome_seq with (x := tt).
    + subst h. destruct t; inversion Hrt; subst; cbn [is_tnode visit_item is_node].
      * apply plain_outcome_skip.
      * exact (visits_reached_field hs _ _ fuel st HPt Hrt).
      * apply plain_outcome_skip.
    + intros st' Hst'. apply IH; [done|congruence].
Qed.

Lemma visit_fields_reached hs fuel h o names kids :
  Forall (visits_reached hs) kids →
  Forall2 (fun f k => ∃ v, obj_attrs o !! f = Some v ∧ repr h k v) names kids →
  ∀ a st, heap st = h → h !! a = Some o →
  plain_outcome (max_list (map (reach_depth hs) kids)) (flat_map (reached hs) kids) fuel st tt
    (for_fold (fun (_ : unit) field =>
                 val <- getattr (VRef a) field ;; visit_field (visit (NodeVisitor hs) fuel) val)
       names tt st).
Proof.
  intros HP Hr a.
  induction Hr as [|f k names kids (v & Hv & Hrk) _ IH]; intros st Hst Ha.
  - apply plain_outcome_skip.
  - apply Forall_cons in HP as [HPk HPs]. cbn [for_fold map max_list flat_map].
    apply plain_outcome_seq with (x := tt).
    + unfold bind, getattr. rewrite Hst, Ha, Hv. subst h.
      by apply visits_reached_field.
    + intros st' Hst'. apply IH; [done|congruence|done].
Qed.

(** The traversal engine with handlers that return at once, on every
    unfolding. *)
Lemma NodeVisitor_reached hs t :
  map_Forall (fun _ h => returns_at_once h) hs → visits_reached hs t.
Proof.
  intros Hhs.
  induction t as [s|a c kids IH|items IH] using tree_nested_ind;
    intros v fuel st Hr; inversion Hr; subst.
  - apply plain_outcome_skip.
  - unfold plain_outcome. cbn [reach_depth reached].
    destruct fuel as [|fuel].
    { exists (VScalar SNone). rewrite decide_False by lia. exists (trace st).
      cbn [visit]. unfold raise. by rewrite state_eta. }
    destruct (hs !! ("visit_" +:+ cls_name (obj_class o))) as [h|] eqn:Hh.
    + destruct (Hhs _ _ Hh) as [r Hret]. exists r.
      rewrite decide_True by lia.
      cbn [visit]. unfold bind at 1. unfold log_visit.
      unfold bind at 1. unfold class_name. cbn [heap].
      match goal with H : heap st !! a = Some o |- _ => rewrite H end.
      cbn [methods NodeVisitor]. rewrite Hh. cbn [default].
      by rewrite Hret.
    + exists (VScalar SNone).
      pose proof (visit_fields_reached hs fuel (heap st) o _ _ IH ltac:(eassumption) a
        (State (heap st) (trace st ++ [VRef a])) eq_refl ltac:(eassumption)) as Hloop.
      unfold plain_outcome in Hloop. cbn [heap trace] in Hloop.
      assert (Hvisit : visit (NodeVisitor hs) (S fuel) (VRef a) st =
        (for_fold (fun (_ : unit) field =>
                     val <- getattr (VRef a) field ;;
                     visit_field (visit (NodeVisitor hs) fuel) val)
           (cls_fields (obj_class o)) tt ;; ret (VScalar SNone))
          (State (heap st) (trace st ++ [VRef a]))).
      { cbn [visit]. unfold bind at 1. unfold log_visit.
        unfold bind at 1. unfold class_name. cbn [heap].
        match goal with H : heap st !! a = Some o |- _ => rewrite H end.
        cbn [methods generic_visit NodeVisitor]. rewrite Hh.
        cbn [default]. unfold NodeVisitor_generic_visit. unfold bind at 1.
        rewrite for_fields_unfold. unfold fields.
        unfold bind, type_of, ret. cbn [heap].
        match goal with H : heap st !! a = Some o |- _ => by rewrite H end. }
      rewrite Hvisit.
      destruct (decide (max_list (map (reach_depth hs) kids) ≤ fuel)).
      * rewrite decide_True by lia. unfold bind at 1. rewrite Hloop. unfold ret.
        by rewrite <- app_assoc.
      * rewrite decide_False by lia. unfold bind at 1.
        destruct Hloop as [tr ->]. eauto.
  - cbn [visit_field]. by eapply visit_items_reached.
Qed.

(** The traversal down to the handled nodes is within the plain one. *)
Lemma reached_within hs t :
  reach_depth hs t ≤ height t ∧ reached hs t ⊆ preorder t.
Proof.
  induction t as [s|a c kids IH|items IH] using tree_nested_ind;
    cbn [reach_depth height reached preorder].
  - done.
  - destruct (hs !! ("visit_" +:+ cls_name c)) as [h|].
    + split; [lia|]. intros x Hx. apply elem_of_cons in Hx as [->|Hx].
      * by apply elem_of_cons; left.
      * by apply elem_of_nil in Hx.
    + split.
      * apply le_n_S. induction IH as [|k kids [Hk _] _ IHk]; cbn [map max_list]; [done|].
        unfold id at 1 3. lia.
      * intros x Hx. apply elem_of_cons in Hx as [->|Hx]; [by apply elem_of_cons; left|].
        apply elem_of_cons; right.
        induction IH as [|k kids [_ Hk] _ IHk]; cbn [flat_map] in *; [done|].
        apply elem_of_app in Hx as [Hx|Hx]; apply elem_of_app; auto.
  - split.
    + induction IH as [|k items [Hk _] _ IHk]; cbn [map max_list]; [done|].
      unfold id at 1 3. destruct k; lia.
    + intros x Hx.
      induction IH as [|k items [_ Hk] _ IHk]; cbn [flat_map] in *; [done|].
      apply elem_of_app in Hx as [Hx|Hx]; apply elem_of_app; [left|right; auto].
      destruct k; auto.
Qed.

(** X11. When every handler of a [NodeVisitor] returns at once, a traversal
    visits a node whose kind has a handler and nothing below it, and every
    other node as a plain traversal does.  The recursion that it needs is
    exactly the depth down to the handled nodes: with a bound of at least
    that depth [visit] returns, the calls of [visit] being the nodes of the
    tree in pre-order without those below a handled node and the store being
    as it was; with any smaller bound it raises [RecursionError], the store
    being as it was.  That depth is at most the height of the tree, and the
    nodes visited are among the nodes of the tree. *)
Theorem X11_handled_nodes_are_not_descended (hs : gmap string method) (t : tree)
    (st : state) (node : value) :
  map_Forall (fun _ h => returns_at_once h) hs →
  repr (heap st) t node →
  is_tnode t = true →
  (∀ fuel, reach_depth hs t ≤ fuel →
     ∃ r, visit (NodeVisitor hs) fuel node st =
            Ok r (State (heap st) (trace st ++ (VRef <$> reached hs t)))) ∧
  (∀ fuel, fuel < reach_depth hs t →
     ∃ tr, visit (NodeVisitor hs) fuel node st =
             Err RecursionError (State (heap st) tr)) ∧
  reach_depth hs t ≤ height t ∧
  reached hs t ⊆ preorder t.
Proof.
  intros Hhs Hr Ht.
  pose proof (NodeVisitor_reached hs t Hhs node) as H.
  destruct (reached_within hs t) as [Hdepth Hsub].
  destruct t; try discriminate.
  split_and!; [| |done|done].
  - intros fuel Hfuel. destruct (H fuel st Hr) as [r Hrun]. exists r.
    unfold plain_outcome in Hrun. by rewrite decide_True in Hrun by done.
  - intros fuel Hfuel. destruct (H fuel st Hr) as [r Hrun].
    unfold plain_outcome in Hrun. by rewrite decide_False in Hrun by lia.
Qed.

Lemma X11_handled_nodes_are_not_descended_witness :
  (∀ fuel, reach_depth Examples.seven_for_Compare Examples.tree0 ≤ fuel →
     ∃ r, visit (NodeVisitor Examples.seven_for_Compare) fuel (VRef 5) Examples.st0 =
            Ok r (State (heap Examples.st0)
                    (trace Examples.st0 ++
                       (VRef <$> reached Examples.seven_for_Compare Examples.tree0)))) ∧
  (∀ fuel, fuel < reach_depth Examples.seven_for_Compare Examples.tree0 →
     ∃ tr, visit (NodeVisitor Examples.seven_for_Compare) fuel (VRef 5) Examples.st0 =
             Err RecursionError (State (heap Examples.st0) tr)) ∧
  reach_depth Examples.seven_for_Compare Examples.tree0 ≤ height Examples.tree0 ∧
  reached Examples.seven_for_Compare Examples.tree0 ⊆ preorder Examples.tree0.
Proof.
  apply (X11_handled_nodes_are_not_descended Examples.seven_for_Compare
           Examples.tree0 Examples.st0 (VRef 5)).
  - apply map_Forall_singleton. exists (VScalar (SInt 7)). reflexivity.
  - apply reprb_sound. vm_compute. reflexivity.
  - reflexivity.
Defined.
